(** * Trademark search assistant: variant engine and search worker

    A shallow embedding of [TrademarkApp_V6_BI.py]: the text analysis of
    [TextProcessor] (pure functions over Python strings) and the worker
    thread [WorkerThread] (explicit state passing over a scripted browser
    and operator), with the properties of the specification stated and
    proved over them. *)

From Stdlib Require Import Ascii String.
From Stdlib Require Import List NArith Bool Arith Lia.
Import ListNotations.

Set Implicit Arguments.

(** ** Python strings

    A Python [str] is a sequence of Unicode code points; [len] counts code
    points.  Literals of the source are written as UTF-8 text and decoded
    by [u]. *)

Definition char := N.
Definition str := list char.

Fixpoint utf8_decode (s : string) : str :=
  match s with
  | EmptyString => []
  | String a s1 =>
    let b := N_of_ascii a in
    if (b <? 128)%N then b :: utf8_decode s1
    else if (b <? 224)%N then
      match s1 with
      | String a1 s2 =>
        ((b - 192) * 64 + (N_of_ascii a1 - 128))%N :: utf8_decode s2
      | EmptyString => []
      end
    else if (b <? 240)%N then
      match s1 with
      | String a1 (String a2 s3) =>
        ((b - 224) * 4096 + (N_of_ascii a1 - 128) * 64
         + (N_of_ascii a2 - 128))%N :: utf8_decode s3
      | _ => []
      end
    else
      match s1 with
      | String a1 (String a2 (String a3 s4)) =>
        ((b - 240) * 262144 + (N_of_ascii a1 - 128) * 4096
         + (N_of_ascii a2 - 128) * 64 + (N_of_ascii a3 - 128))%N
        :: utf8_decode s4
      | _ => []
      end
  end.

Definition u (s : string) : str := utf8_decode s.
Arguments u s%_string.

Definition char_eqb (a b : char) : bool := N.eqb a b.

Fixpoint str_eqb (a b : str) : bool :=
  match a, b with
  | [], [] => true
  | x :: a', y :: b' => char_eqb x y && str_eqb a' b'
  | _, _ => false
  end.

(** [x in l] for a list of strings. *)
Fixpoint mem (x : str) (l : list str) : bool :=
  match l with
  | [] => false
  | y :: l' => str_eqb x y || mem x l'
  end.

(** [s.startswith(p)]. *)
Fixpoint starts_with (p s : str) : bool :=
  match p, s with
  | [], _ => true
  | x :: p', y :: s' => char_eqb x y && starts_with p' s'
  | _ :: _, [] => false
  end.

(** [p in s] for strings: substring test. *)
Fixpoint contains (p s : str) : bool :=
  starts_with p s ||
  match s with
  | [] => false
  | _ :: s' => contains p s'
  end.

(** [str.isspace] of one character, which is also the class [\s] of [re]
    and the separator set of [split()] and [strip()]. *)
Definition isspace (c : char) : bool :=
  ((9 <=? c) && (c <=? 13) || (28 <=? c) && (c <=? 32)
   || (c =? 133) || (c =? 160) || (c =? 5760)
   || (8192 <=? c) && (c <=? 8202)
   || (c =? 8232) || (c =? 8233) || (c =? 8239) || (c =? 8287)
   || (c =? 12288))%N.

Fixpoint lstrip (s : str) : str :=
  match s with
  | [] => []
  | c :: s' => if isspace c then lstrip s' else s
  end.

Definition rstrip (s : str) : str := rev (lstrip (rev s)).

(** [s.strip()]. *)
Definition strip (s : str) : str := rstrip (lstrip s).

(** [s.split()]: maximal runs of non-space characters; [tok] is the token
    being read, reversed. *)
Fixpoint split_from (tok : str) (s : str) : list str :=
  match s with
  | [] => match tok with [] => [] | _ => [rev tok] end
  | c :: s' =>
    if isspace c then
      match tok with
      | [] => split_from [] s'
      | _ => rev tok :: split_from [] s'
      end
    else split_from (c :: tok) s'
  end.

Definition split (s : str) : list str := split_from [] s.

(** [sep.join(l)]. *)
Fixpoint join (sep : str) (l : list str) : str :=
  match l with
  | [] => []
  | [w] => w
  | w :: l' => w ++ sep ++ join sep l'
  end.

(** [s.replace(old, empty)] for a non-empty [old]: every occurrence, left to
    right, without overlap; [skip] counts the characters of the occurrence
    under removal that are still to be dropped. *)
Fixpoint remove_from (old : str) (skip : nat) (s : str) : str :=
  match s with
  | [] => []
  | c :: s' =>
    match skip with
    | S k => remove_from old k s'
    | O =>
      if starts_with old s then remove_from old (length old - 1) s'
      else c :: remove_from old 0 s'
    end
  end.

Definition remove_all (old s : str) : str := remove_from old 0 s.

(** [re.search(r'\((.*?)\)', s)]: the group of the leftmost match.
    [lazy_group] reads after an opening parenthesis up to the first
    closing one; [.] does not match a newline. *)
Fixpoint lazy_group (s : str) : option str :=
  match s with
  | [] => None
  | c :: s' =>
    if char_eqb c 41%N then Some []
    else if char_eqb c 10%N then None
    else option_map (cons c) (lazy_group s')
  end.

Fixpoint search_paren (s : str) : option str :=
  match s with
  | [] => None
  | c :: s' =>
    if char_eqb c 40%N then
      match lazy_group s' with
      | Some g => Some g
      | None => search_paren s'
      end
    else search_paren s'
  end.

(** [itertools.product] of the lists in [options]: the rightmost position
    advances fastest. *)
Fixpoint product (A : Type) (options : list (list A)) : list (list A) :=
  match options with
  | [] => [[]]
  | o :: rest => flat_map (fun x => map (cons x) (product rest)) o
  end.

(** ** What the Python runtime decides

    Two facilities used by the source are tables or orders of the
    interpreter, not of the program: the Unicode table behind [\w], and
    the iteration order of a [set] of strings, which follows the hashes of
    its members.  [list_of_set l] is [list(s)] for the set [s] filled with
    the members of [l] in that order; all the program may rely on is that
    it lists each member once. *)
Class Runtime := {
  isalnum : char -> bool;
  list_of_set : list str -> list str;
  list_of_set_NoDup : forall l, NoDup (list_of_set l);
  list_of_set_In : forall l x, In x (list_of_set l) <-> In x l
}.

(** ** TextProcessor *)

Definition phonetic_groups : list (list str) :=
  [ [u "س"; u "ص"; u "ث"];
    [u "ز"; u "ذ"; u "ض"; u "ظ"];
    [u "ت"; u "ط"];
    [u "ه"; u "ح"];
    [u "غ"; u "ق"] ].

Definition visual_groups : list (list str) :=
  [ [u "ک"; u "گ"];
    [u "ب"; u "پ"];
    [u "ج"; u "چ"];
    [u "ی"; u "ئ"] ].

Definition all_subs : list (list str) := phonetic_groups ++ visual_groups.

Definition f_to_e_map : list (str * str) :=
  [ (u "ا", u "a"); (u "آ", u "a"); (u "ب", u "b"); (u "پ", u "p");
    (u "ت", u "t"); (u "ث", u "s"); (u "ج", u "j"); (u "چ", u "ch");
    (u "ح", u "h"); (u "خ", u "kh"); (u "د", u "d"); (u "ذ", u "z");
    (u "ر", u "r"); (u "ز", u "z"); (u "ژ", u "zh"); (u "س", u "s");
    (u "ش", u "sh"); (u "ص", u "s"); (u "ض", u "z"); (u "ط", u "t");
    (u "ظ", u "z"); (u "ع", u "a"); (u "غ", u "gh"); (u "ف", u "f");
    (u "ق", u "gh"); (u "ک", u "k"); (u "گ", u "g"); (u "ل", u "l");
    (u "م", u "m"); (u "ن", u "n"); (u "و", u "v"); (u "ه", u "h");
    (u "ی", u "y"); (u " ", u " ") ].

Definition stop_words : list str :=
  [ u "شرکت"; u "گروه"; u "صنعت"; u "صنعتی"; u "گستر"; u "گسترش";
    u "پرداز"; u "پردازش"; u "فرا"; u "ایمن"; u "سازان"; u "سازه";
    u "سیستم"; u "پارس"; u "نوین"; u "مهر"; u "تک"; u "برتر"; u "طلایی";
    u "سبز"; u "جنوب"; u "شمال"; u "شرق"; u "غرب"; u "مرکزی";
    u "ایرانیان"; u "توسعه"; u "فناوری"; u "خدمات"; u "مهندسی";
    u "بازرگانی"; u "بین الملل"; u "پخش"; u "تولیدی"; u "آریا"; u "کیان";
    u "پویا" ].

(** [dict.get(c, c)] on [f_to_e_map]. *)
Fixpoint dict_get (d : list (str * str)) (k dflt : str) : str :=
  match d with
  | [] => dflt
  | (k', v) :: d' => if str_eqb k k' then v else dict_get d' k dflt
  end.

Definition extract_core_root (text : str) : str :=
  let words := split text in
  let core_words := filter (fun w => negb (mem w stop_words)) words in
  match core_words with
  | [] => text
  | _ => join (u " ") core_words
  end.

(** The alternatives of one character: the first group of [all_subs]
    holding it, or the character alone. *)
Definition options_of (ch : char) : list str :=
  match find (fun group => mem [ch] group) all_subs with
  | Some group => group
  | None => [[ch]]
  end.

(** The list comprehension under [set(...)] in [generate_permutations]. *)
Definition joined_product (text : str) : list str :=
  map (@concat char) (product (map options_of text)).

Definition generate_permutations `{Runtime} (text : str) : list str :=
  list_of_set (joined_product text).

Record report := {
  layer3_translation : option str;
  layer4_core_root : str;
  layer3_fingilish : str
}.

Section AnalyzeName.
Context `{Runtime}.

(** [\w]: alphanumeric or underscore. *)
Definition is_word (c : char) : bool := isalnum c || char_eqb c 95%N.

(** [re.sub(r'[^\w\s]', '', s)]. *)
Definition sub_nonword (s : str) : str :=
  filter (fun c => is_word c || isspace c) s.

Definition translation_of (raw_input : str) : option str :=
  search_paren raw_input.

Definition persian_part_of (raw_input : str) : str :=
  match translation_of raw_input with
  | Some translation =>
    strip (remove_all (u "(" ++ translation ++ u ")") raw_input)
  | None => raw_input
  end.

Definition clean_name_of (raw_input : str) : str :=
  strip (sub_nonword (persian_part_of raw_input)).

Definition core_root_of (raw_input : str) : str :=
  extract_core_root (clean_name_of raw_input).

Definition fingilish_of (core_root : str) : str :=
  flat_map (fun c => dict_get f_to_e_map [c] [c]) core_root.

(** What step 3 of [analyze_name] hands to [variants_to_search.update]. *)
Definition confusables_added (core_root : str) : list str :=
  if length core_root <? 15 then
    let perms := generate_permutations core_root in
    if length perms <? 32 then perms else firstn 15 perms
  else [].

(** The members of [variants_to_search], in the order they are added. *)
Definition variants_added (raw_input : str) : list str :=
  let clean_name := clean_name_of raw_input in
  let core_root := core_root_of raw_input in
  match translation_of raw_input with
  | Some translation => [translation]
  | None => []
  end
  ++ [clean_name]
  ++ (if str_eqb core_root clean_name then [] else [core_root])
  ++ confusables_added core_root
  ++ [fingilish_of core_root].

Definition analyze_name (raw_input : str) : list str * report :=
  (list_of_set (variants_added raw_input),
   {| layer3_translation := translation_of raw_input;
      layer4_core_root := core_root_of raw_input;
      layer3_fingilish := fingilish_of (core_root_of raw_input) |}).

(** The members of the variant set that do not come from confusable
    expansion. *)
Definition base_variant (raw_input x : str) : Prop :=
  translation_of raw_input = Some x
  \/ x = clean_name_of raw_input
  \/ (x = core_root_of raw_input
      /\ core_root_of raw_input <> clean_name_of raw_input)
  \/ x = fingilish_of (core_root_of raw_input).
End AnalyzeName.

(** ** Two runtimes to run the definitions on

    [isalnum_latin_arabic] is the Unicode table restricted to the Basic
    Latin and Arabic blocks.  [first_seen] lists a set in the order of
    first insertion, [last_first] in the opposite order: both list each
    member once, as any hash order does. *)
Definition isalnum_latin_arabic (c : char) : bool :=
  ((48 <=? c) && (c <=? 57) || (65 <=? c) && (c <=? 90)
   || (97 <=? c) && (c <=? 122)
   || (1568 <=? c) && (c <=? 1610) || (1632 <=? c) && (c <=? 1641)
   || (1646 <=? c) && (c <=? 1647) || (1649 <=? c) && (c <=? 1747)
   || (c =? 1749) || (1765 <=? c) && (c <=? 1766)
   || (1774 <=? c) && (c <=? 1788) || (c =? 1791))%N.

Fixpoint first_seen (l : list str) : list str :=
  match l with
  | [] => []
  | x :: l' => x :: filter (fun y => negb (str_eqb y x)) (first_seen l')
  end.

Definition last_first (l : list str) : list str := rev (first_seen l).


(** ** WorkerThread: shared fields and operator calls

    The fields of the worker that the operator's side writes.  The three
    operator calls run on the other thread, each a plain assignment. *)

Record Worker := {
  is_running : bool;
  is_paused : bool;
  captcha_code : option str;
  waiting_for_captcha : bool
}.

(** The fields as [__init__] leaves them. *)
Definition new_worker : Worker :=
  {| is_running := true; is_paused := false;
     captcha_code := None; waiting_for_captcha := false |}.

Definition receive_captcha (code : str) (self : Worker) : Worker :=
  {| is_running := is_running self; is_paused := is_paused self;
     captcha_code := Some code; waiting_for_captcha := false |}.

Definition stop (self : Worker) : Worker :=
  {| is_running := false; is_paused := is_paused self;
     captcha_code := captcha_code self;
     waiting_for_captcha := waiting_for_captcha self |}.

Definition toggle_pause (self : Worker) : Worker :=
  {| is_running := is_running self; is_paused := negb (is_paused self);
     captcha_code := captcha_code self;
     waiting_for_captcha := waiting_for_captcha self |}.

Definition set_waiting (b : bool) (self : Worker) : Worker :=
  {| is_running := is_running self; is_paused := is_paused self;
     captcha_code := captcha_code self; waiting_for_captcha := b |}.

Inductive operator_call :=
| CallReceiveCaptcha (code : str)
| CallStop
| CallTogglePause.

Definition operate (self : Worker) (c : operator_call) : Worker :=
  match c with
  | CallReceiveCaptcha code => receive_captcha code self
  | CallStop => stop self
  | CallTogglePause => toggle_pause self
  end.

(** ** The world the worker runs in

    The browser, the file system and the operator are outside the
    program.  Each interaction with the browser or the file system is a
    [request] answered by the world; the requests follow the driver calls
    of the source, a run of calls with nothing observable between them
    counting as one.  [time.sleep] only lets time pass and is left out. *)

Inductive exn :=
| TimeoutException (msg : str)
| OtherException (msg : str).

(** [str(e)]. *)
Definition exn_str (e : exn) : str :=
  match e with TimeoutException m => m | OtherException m => m end.

Inductive request :=
| SetupDriver                      (* setup_driver() *)
| Get (url : str)                  (* driver.get(url) *)
| ReadNames (file_path : str)      (* open the name list and read its lines *)
| DismissNotice                    (* find the notice buttons, click the shown ones *)
| Screenshot                       (* find imgCaptcha, scroll to it, take its picture *)
| FillTitle (variant : str)        (* clear ItemTitle and type the variant *)
| ReadClasses                      (* value of SignProductId *)
| FillClasses (classes : str)      (* clear SignProductId and type the classes *)
| FillCaptcha (code : option str)  (* clear txtCaptcha and type the code *)
| ClickSearch                      (* click LogIn *)
| WaitAlert                        (* wait for an alert, read its text, accept it *)
| ClickCaptchaImage                (* find imgCaptcha and click it *)
| Refresh                          (* driver.refresh() *)
| ReadResults                      (* text of the .result box *)
| FindLinks                        (* the result links, at the top of a page *)
| CurrentWindow                    (* driver.current_window_handle *)
| RefindLinks                      (* the result links, before each item *)
| ReadTitle (i : nat)              (* text of the h2 of link i *)
| ClickLink (i : nat)              (* click link i *)
| WindowHandles                    (* number of open windows *)
| SwitchToNewWindow                (* switch to the window that is not the main one *)
| CloseWindow                      (* close it and switch back *)
| WaitModal                        (* wait until C_Spec is visible *)
| SendEscape                       (* send the escape key *)
| ReadField (is_modal : bool) (lbl : str)  (* text of the cell next to the label *)
| FindNext                         (* is a next-page control there and shown *)
| ClickNext                        (* click it *)
| QuitDriver.                          (* driver.quit() *)

Inductive answer :=
| Returned
| Raise (e : exn)
| Text (s : str)
| Count (n : nat)
| Flag (b : bool)
| Lines (ls : list str)
| Image (png : list N).

Record record := {
  search_term : str;
  variant : str;
  status : str;
  brand : str;
  reg_no : str;
  owner : str;
  goods : str
}.

Inductive log_line :=
| LogFileError (e : str)
| LogEnterCaptcha
| LogCaptchaImageError (e : str)
| LogAnalysing (name : str)
| LogCoreRoot (root : str)
| LogVariantCount (n : nat)
| LogCaptchaExpired
| LogSiteMessage (err : str)
| LogNetworkError (e : str).

(** What the worker does, in order: its requests with their answers, and
    the signals it emits. *)
Inductive event :=
| Did (r : request) (a : answer)
| LogSignal (m : log_line)
| CaptchaSignal (png : list N)
| StatusSignal (s : str)
| ProgressSignal (i total : nat)
| ResultSignal (r : record)
| FinishedSignal.

(** [answers] are the world's answers to the coming requests.  [operator]
    holds, for each coming access of the worker to a shared field, the
    calls the operator made since the access before; when it is used up
    the operator makes no further call. *)
Record World := {
  self : Worker;
  answers : list answer;
  operator : list (list operator_call)
}.

(** A computation ends normally, with an exception, or is cut off: the
    world's answers are used up or of the wrong kind, or a loop is out of
    fuel. *)
Inductive outcome (A : Type) :=
| Done (a : A)
| Raised (e : exn)
| Cut.
Arguments Raised {A} e.
Arguments Cut {A}.

Definition M (A : Type) : Type := World -> outcome A * World * list event.

Definition ret (A : Type) (a : A) : M A := fun w => (Done a, w, []).

Definition bind (A B : Type) (m : M A) (f : A -> M B) : M B :=
  fun w =>
    match m w with
    | (Done a, w1, tr1) =>
      match f a w1 with
      | (o, w2, tr2) => (o, w2, tr1 ++ tr2)
      end
    | (Raised e, w1, tr1) => (Raised e, w1, tr1)
    | (Cut, w1, tr1) => (Cut, w1, tr1)
    end.

Declare Scope worker_scope.
Delimit Scope worker_scope with worker.
Notation "x <- m ;; k" := (bind m (fun x => k))
  (at level 61, m at next level, right associativity) : worker_scope.
Notation "m ;; k" := (bind m (fun _ => k))
  (at level 61, right associativity) : worker_scope.
Local Open Scope worker_scope.

Definition cut_off (A : Type) : M A := fun w => (Cut, w, []).
Arguments cut_off {A}.

Definition emit (e : event) : M unit := fun w => (Done tt, w, [e]).

(** [try: m except Exception as e: handler e]. *)
Definition try_except (A : Type) (m : M A) (handler : exn -> M A) : M A :=
  fun w =>
    match m w with
    | (Raised e, w1, tr1) =>
      match handler e w1 with
      | (o, w2, tr2) => (o, w2, tr1 ++ tr2)
      end
    | r => r
    end.

(** [try: m except TimeoutException: handler]. *)
Definition try_except_timeout (A : Type) (m : M A) (handler : M A) : M A :=
  fun w =>
    match m w with
    | (Raised (TimeoutException msg), w1, tr1) =>
      match handler w1 with
      | (o, w2, tr2) => (o, w2, tr1 ++ tr2)
      end
    | r => r
    end.

Definition call (r : request) : M answer :=
  fun w =>
    match answers w with
    | [] => (Cut, w, [])
    | a :: rest =>
      let w' := {| self := self w; answers := rest; operator := operator w |} in
      match a with
      | Raise e => (Raised e, w', [Did r a])
      | _ => (Done a, w', [Did r a])
      end
    end.

Definition call_unit (r : request) : M unit := call r ;; ret tt.

Definition call_text (r : request) : M str :=
  a <- call r ;; match a with Text s => ret s | _ => cut_off end.

Definition call_count (r : request) : M nat :=
  a <- call r ;; match a with Count n => ret n | _ => cut_off end.

Definition call_flag (r : request) : M bool :=
  a <- call r ;; match a with Flag b => ret b | _ => cut_off end.

Definition call_lines (r : request) : M (list str) :=
  a <- call r ;; match a with Lines ls => ret ls | _ => cut_off end.

Definition call_image (r : request) : M (list N) :=
  a <- call r ;; match a with Image png => ret png | _ => cut_off end.

(** Before the worker touches a shared field, the operator's calls made
    in the meantime take effect. *)
Definition absorb (w : World) : World :=
  match operator w with
  | [] => w
  | calls :: rest =>
    {| self := fold_left operate calls (self w);
       answers := answers w; operator := rest |}
  end.

Definition sync : M unit := fun w => (Done tt, absorb w, []).

Definition read (A : Type) (field : Worker -> A) : M A :=
  sync ;; fun w => (Done (field (self w)), w, []).

Definition write_waiting (b : bool) : M unit :=
  sync ;;
  fun w => (Done tt, {| self := set_waiting b (self w);
                        answers := answers w; operator := operator w |}, []).

(** ** WorkerThread: the methods *)

Fixpoint pause_check (fuel : nat) : M unit :=
  match fuel with
  | O => cut_off
  | S k =>
    paused <- read is_paused ;;
    if paused then pause_check k else ret tt
  end.

(** [while self.waiting_for_captcha and self.is_running]. *)
Fixpoint wait_for_captcha (fuel : nat) : M unit :=
  match fuel with
  | O => cut_off
  | S k =>
    waiting <- read waiting_for_captcha ;;
    if waiting then
      running <- read is_running ;;
      if running then wait_for_captcha k else ret tt
    else ret tt
  end.

Definition get_captcha_image (fuel : nat) : M (option str) :=
  try_except
    (png <- call_image Screenshot ;;
     emit (CaptchaSignal png) ;;
     emit (LogSignal LogEnterCaptcha) ;;
     emit (StatusSignal (u "منتظر ورودی کاربر...")) ;;
     write_waiting true ;;
     wait_for_captcha fuel ;;
     emit (StatusSignal (u "در حال تحلیل...")) ;;
     read captcha_code)
    (fun e =>
       emit (LogSignal (LogCaptchaImageError (exn_str e))) ;;
       ret (Some (u "00000"))).

Definition conflict_record (st var title reg own gds : str) : record :=
  {| search_term := st; variant := var; status := u "دارای تعارض";
     brand := title; reg_no := reg; owner := own; goods := gds |}.

Definition error_record (st var title : str) : record :=
  {| search_term := st; variant := var; status := u "خطا";
     brand := title; reg_no := u "-"; owner := u "خطا در خواندن";
     goods := u "-" |}.

Definition summary_record (name : str) : record :=
  {| search_term := name; variant := u "مجموع بررسی‌ها";
     status := u "آزاد (تأیید شده)";
     brand := u "---"; reg_no := u "-"; owner := u "بدون سابقه تعارض";
     goods := u "-" |}.

(** [gv(lbl)] of [extract_data]. *)
Definition gv (is_modal : bool) (lbl : str) : M str :=
  t <- call_text (ReadField is_modal lbl) ;; ret (strip t).

Definition extract_data (st var title : str) (is_modal : bool) : M unit :=
  try_except
    (reg <- gv is_modal (u "شماره ثبت") ;;
     own <- gv is_modal (u "نام مالک") ;;
     gds <- gv is_modal (u "کالاها") ;;
     emit (ResultSignal (conflict_record st var title reg own (firstn 100 gds))))
    (fun _ => emit (ResultSignal (error_record st var title))).

(** How the body of the loop over the links of a page ends. *)
Inductive item_end :=
| ItemNext      (* on to the next link *)
| ItemBreak     (* break *)
| ItemReturn.   (* return total_items *)

Definition scrape_item (st var : str) (i : nat) : M item_end :=
  running <- read is_running ;;
  if negb running then ret ItemReturn
  else
    try_except
      (n <- call_count RefindLinks ;;
       if n <=? i then ret ItemBreak
       else
         title <- try_except
                    (t <- call_text (ReadTitle i) ;; ret (strip t))
                    (fun _ => ret (u "Unknown")) ;;
         call_unit (ClickLink i) ;;
         handles <- call_count WindowHandles ;;
         (if 1 <? handles then
            call_unit SwitchToNewWindow ;;
            extract_data st var title false ;;
            call_unit CloseWindow
          else
            try_except
              (call_unit WaitModal ;;
               extract_data st var title true ;;
               call_unit SendEscape)
              (fun _ => ret tt)) ;;
         ret ItemNext)
      (fun _ => ret ItemNext).

Fixpoint scrape_items (st var : str) (indices : list nat) : M item_end :=
  match indices with
  | [] => ret ItemNext
  | i :: rest =>
    e <- scrape_item st var i ;;
    match e with
    | ItemNext => scrape_items st var rest
    | _ => ret e
    end
  end.

(** The [while self.is_running] loop of [scrape_all_pages]. *)
Fixpoint scrape_pages (fuel : nat) (st var : str) (total_items : nat)
  : M nat :=
  match fuel with
  | O => cut_off
  | S k =>
    running <- read is_running ;;
    if negb running then ret total_items
    else
      links <- call_count FindLinks ;;
      call_unit CurrentWindow ;;
      if links =? 0 then ret total_items
      else
        let total_items := total_items + links in
        e <- scrape_items st var (seq 0 links) ;;
        match e with
        | ItemReturn => ret total_items
        | _ =>
          more <- try_except
                    (shown <- call_flag FindNext ;;
                     if shown then call_unit ClickNext ;; ret true
                     else ret false)
                    (fun _ => ret false) ;;
          if more then scrape_pages k st var total_items
          else ret total_items
        end
  end.

Definition scrape_all_pages (fuel : nat) (search_term variant : str) : M nat :=
  scrape_pages fuel search_term variant 0.

(** How one pass through the body of the attempt loop ends. *)
Inductive attempt_end :=
| Again        (* continue, or the end of the exception handler *)
| Abandon      (* break *)
| Succeeded.   (* success = True *)

(** [if "کد امنیتی" in err or "اشتباه" in err]. *)
Definition captcha_rejected (err : str) : bool :=
  contains (u "کد امنیتی") err || contains (u "اشتباه") err.

Section Run.
Context `{Runtime}.
Variable classes : str.

(** The alert branch of an attempt, once the text of the alert is read. *)
Definition on_alert (fuel : nat) (err : str) (current_captcha : option str)
  : M (attempt_end * option str) :=
  if captcha_rejected err then
    emit (LogSignal LogCaptchaExpired) ;;
    call_unit ClickCaptchaImage ;;
    code <- get_captcha_image fuel ;;
    ret (Again, code)
  else
    emit (LogSignal (LogSiteMessage err)) ;;
    ret (Abandon, current_captcha).

(** The start of an attempt: the fields of the search form are filled,
    the class codes only when the field holds something else, and the
    form is submitted. *)
Definition submit_form (variant : str) (current_captcha : option str)
  : M unit :=
  call_unit (FillTitle variant) ;;
  value <- call_text ReadClasses ;;
  (if str_eqb value classes then ret tt
   else call_unit (FillClasses classes)) ;;
  call_unit (FillCaptcha current_captcha) ;;
  call_unit ClickSearch.

(** The body of [while not success and self.is_running]; it returns how
    it ends, [current_captcha] and [found_any_conflict]. *)
Definition attempt (fuel : nat) (name variant : str)
           (current_captcha : option str) (found_any_conflict : bool)
  : M (attempt_end * option str * bool) :=
  try_except
    (submit_form variant current_captcha ;;
     alert <- try_except_timeout
                (err <- call_text WaitAlert ;;
                 r <- on_alert fuel err current_captcha ;;
                 ret (Some r))
                (ret None) ;;
     match alert with
     | Some (e, code) => ret (e, code, found_any_conflict)
     | None =>
       text <- call_text ReadResults ;;
       if contains (u "رکوردی یافت نشد") text then
         ret (Succeeded, current_captcha, found_any_conflict)
       else
         items <- scrape_all_pages fuel name variant ;;
         ret (Succeeded, current_captcha,
              if 0 <? items then true else found_any_conflict)
     end)
    (fun e =>
       emit (LogSignal (LogNetworkError (firstn 50 (exn_str e)))) ;;
       try_except (call_unit Refresh) (fun _ => ret tt) ;;
       code <- get_captcha_image fuel ;;
       ret (Again, code, found_any_conflict)).

Fixpoint search_variant (fuel : nat) (name variant : str)
         (current_captcha : option str) (found_any_conflict : bool)
  : M (option str * bool) :=
  match fuel with
  | O => cut_off
  | S k =>
    running <- read is_running ;;
    if negb running then ret (current_captcha, found_any_conflict)
    else
      r <- attempt k name variant current_captcha found_any_conflict ;;
      match r with
      | (Again, code, found) => search_variant k name variant code found
      | (_, code, found) => ret (code, found)
      end
  end.

(** [for variant in variants]. *)
Fixpoint search_variants (fuel : nat) (name : str) (variants : list str)
         (current_captcha : option str) (found_any_conflict : bool)
  : M (option str * bool) :=
  match variants with
  | [] => ret (current_captcha, found_any_conflict)
  | variant :: rest =>
    running <- read is_running ;;
    if negb running then ret (current_captcha, found_any_conflict)
    else
      pause_check fuel ;;
      r <- search_variant fuel name variant current_captcha
                          found_any_conflict ;;
      search_variants fuel name rest (fst r) (snd r)
  end.

(** The body of [for idx, name in enumerate(names)] after its check of
    [is_running]; it returns [current_captcha] and the flag
    [found_any_conflict] it ends with. *)
Definition process_name (fuel : nat) (idx total : nat) (name : str)
           (current_captcha : option str) : M (option str * bool) :=
  pause_check fuel ;;
  emit (ProgressSignal (idx + 1) total) ;;
  emit (LogSignal (LogAnalysing name)) ;;
  let (variants, report) := analyze_name name in
  emit (LogSignal (LogCoreRoot (layer4_core_root report))) ;;
  emit (LogSignal (LogVariantCount (length variants))) ;;
  r <- search_variants fuel name variants current_captcha false ;;
  (if negb (snd r) then emit (ResultSignal (summary_record name))
   else ret tt) ;;
  ret r.

Fixpoint process_names (fuel : nat) (idx total : nat) (names : list str)
         (current_captcha : option str) : M unit :=
  match names with
  | [] => ret tt
  | name :: rest =>
    running <- read is_running ;;
    if negb running then ret tt
    else
      r <- process_name fuel idx total name current_captcha ;;
      process_names fuel (S idx) total rest (fst r)
  end.

Definition nonempty (s : str) : bool :=
  match s with [] => false | _ => true end.

Definition run (fuel : nat) (file_path : str) : M unit :=
  call_unit SetupDriver ;;
  call_unit (Get (u "https://ipm.ssaa.ir/Search-Trademark")) ;;
  names <- try_except
             (ls <- call_lines (ReadNames file_path) ;;
              ret (Some (map strip (filter (fun l => nonempty (strip l)) ls))))
             (fun e =>
                emit (LogSignal (LogFileError (exn_str e))) ;;
                ret None) ;;
  match names with
  | None => ret tt
  | Some names =>
    try_except (call_unit DismissNotice) (fun _ => ret tt) ;;
    current_captcha <- get_captcha_image fuel ;;
    process_names fuel 0 (length names) names current_captcha ;;
    call_unit QuitDriver ;;
    emit FinishedSignal
  end.
End Run.

(** ** Statements about worker computations

    [spec m Q R]: whenever [m] ends normally with [a] after the events
    [tr], [Q a tr] holds, and whenever it ends with the exception [e],
    [R e tr] holds. *)

Definition spec (A : Type) (m : M A)
           (Q : A -> list event -> Prop) (R : exn -> list event -> Prop)
  : Prop :=
  forall w,
    match m w with
    | (Done a, _, tr) => Q a tr
    | (Raised e, _, tr) => R e tr
    | (Cut, _, _) => True
    end.

Definition not_raise (a : answer) : Prop :=
  match a with Raise _ => False | _ => True end.

(** Kinds of events. *)

Definition is_result (e : event) : bool :=
  match e with ResultSignal _ => true | _ => false end.

(** The synthetic record of a name without conflict carries the status
    [آزاد (تأیید شده)]. *)
Definition has_free_status (r : record) : bool :=
  str_eqb (status r) (u "آزاد (تأیید شده)").

Definition is_summary (e : event) : bool :=
  match e with
  | ResultSignal r => has_free_status r
  | _ => false
  end.

(** A result listing could not be read at the top of a page: the only
    exceptions that leave [scrape_all_pages]. *)
Definition failed_listing (e : event) : bool :=
  match e with
  | Did FindLinks (Raise _) => true
  | Did CurrentWindow (Raise _) => true
  | _ => false
  end.

(** A result listing with at least one link was read. *)
Definition links_found (e : event) : bool :=
  match e with
  | Did FindLinks (Count (S _)) => true
  | _ => false
  end.

(** Events that are neither records nor readings of a result listing. *)
Definition plain (tr : list event) : Prop :=
  existsb is_result tr = false
  /\ existsb failed_listing tr = false
  /\ existsb links_found tr = false.

(** How the conflict flag of a name moves from [found0] to [found1] over
    the events [tr]: no summary record is emitted; the flag is never
    cleared; it is set only when a listing with links was read; and while
    it stays unset, records can only come from a scrape that failed. *)
Definition flag_step (found0 found1 : bool) (tr : list event) : Prop :=
  existsb is_summary tr = false
  /\ (if found1 then found0 = true \/ existsb links_found tr = true
      else found0 = false
           /\ (existsb failed_listing tr = false ->
               existsb is_result tr = false)).

(** The events of the visit of one result link: records, but no summary
    record and no reading of a listing at the top of a page. *)
Definition item_events (tr : list event) : Prop :=
  existsb is_summary tr = false
  /\ existsb failed_listing tr = false
  /\ existsb links_found tr = false.

(** The events [tr] of a scrape that returns [n] when it started from the
    count [n0]: the count only grows; a count that did not grow means that
    no link was seen and no record emitted, a count that grew that a
    listing with links was read. *)
Definition scrape_returns (n0 n : nat) (tr : list event) : Prop :=
  existsb is_summary tr = false
  /\ n0 <= n
  /\ (n = n0 -> existsb is_result tr = false
                /\ existsb failed_listing tr = false
                /\ existsb links_found tr = false)
  /\ (n0 < n -> existsb links_found tr = true).

(** The events of a scrape that an exception ends: a listing could not be
    read. *)
Definition scrape_raises (tr : list event) : Prop :=
  existsb is_summary tr = false /\ existsb failed_listing tr = true.

(** ** Worlds, piece by piece *)






(** ** Worlds to run the worker in *)

(** The wait for an alert times out: no alert came. *)
Definition no_alert : answer := Raise (TimeoutException (u "no alert")).

(** The only variant of the name [ab] is searched and found clean. *)
Definition clean_world : World :=
  {| self := new_worker;
     answers := [ Returned; Text (u "5,31"); Returned; Returned; no_alert;
                  Text (u "رکوردی یافت نشد") ];
     operator := [] |}.

(** The name list cannot be opened. *)
Definition unreadable_world : World :=
  {| self := new_worker;
     answers := [ Returned; Returned;
                  Raise (OtherException (u "No such file or directory")) ];
     operator := [] |}.

(** Two names.  The search of [ab] lists one link whose detail view never
    opens; the operator stops the run before [cd] is reached. *)
Definition unread_link_world : World :=
  {| self := new_worker;
     answers := [ Returned; Returned; Lines [u "ab"; u "cd"]; Returned;
                  Image [];
                  Returned; Text (u "5,31"); Returned; Returned; no_alert;
                  Text (u "1");
                  Count 1; Returned;
                  Count 1; Text (u "AB"); Returned; Count 1;
                  Raise (TimeoutException (u "no modal"));
                  Flag false;
                  Returned ];
     operator := [ []; [CallReceiveCaptcha (u "12345")]; []; []; []; []; [];
                   []; []; []; [CallStop] ] |}.

(** One name.  The operator enters the captcha, and stops the run when the
    worker has started on the name and has not yet searched any of its
    variants. *)
Definition stopped_world : World :=
  {| self := new_worker;
     answers := [ Returned; Returned; Lines [u "سیب"]; Returned; Image [];
                  Returned ];
     operator := [ []; [CallReceiveCaptcha (u "12345")]; []; []; [];
                   [CallStop] ] |}.



(** The site rejects the token, and the click on the captcha image times
    out; the result box of the rejected search reports no record. *)
Definition click_timeout_world : World :=
  {| self := receive_captcha (u "12345") new_worker;
     answers := [ Returned; Text (u "5,31"); Returned; Returned;
                  Text (u "کد امنیتی وارد شده اشتباه است");
                  Raise (TimeoutException (u "script timeout"));
                  Text (u "رکوردی یافت نشد") ];
     operator := [] |}.

(** ** FinalApp: the window that shows and exports the records

    The part of the window's state that [add_result], [start_process] and
    [export_data] compute on: the list of records, the rows of the table
    with the colours of their status cell, and the two summary lists.
    Fonts, alignment, scrolling and the enabling of buttons are left
    out. *)

Record table_row := {
  cells : list str;
  background : str;
  foreground : str
}.

Record App := {
  results : list record;
  table : list table_row;
  list_approved : list str;
  list_rejected : list str
}.

(** The lists as [start_process] leaves them before it starts a worker. *)
Definition cleared : App :=
  {| results := []; table := []; list_approved := []; list_rejected := [] |}.

(** The colours of the status cell and the entries added to the summary
    lists, by the status of the record. *)
Definition add_result (data : record) (app : App) : App :=
  let items := [ search_term data; variant data; status data; brand data;
                 reg_no data; owner data; goods data ] in
  let status := status data in
  let row (color text_color : str) :=
      {| cells := items; background := color; foreground := text_color |} in
  if contains (u "آزاد") status then
    {| results := results app ++ [data];
       table := table app ++ [row (u "#d1e7dd") (u "#0f5132")];
       list_approved :=
         if str_eqb (variant data) (u "مجموع بررسی‌ها")
         then list_approved app ++ [u "✅ " ++ search_term data]
         else list_approved app;
       list_rejected := list_rejected app |}
  else if contains (u "تعارض") status || contains (u "مشابه") status then
    {| results := results app ++ [data];
       table := table app ++ [row (u "#f8d7da") (u "#842029")];
       list_approved := list_approved app;
       list_rejected :=
         list_rejected app
         ++ [u "⚠️ " ++ search_term data ++ u " -> " ++ brand data
             ++ u " (" ++ variant data ++ u ")"] |}
  else
    {| results := results app ++ [data];
       table := table app ++ [row (u "#fff3cd") (u "#664d03")];
       list_approved := list_approved app;
       list_rejected := list_rejected app |}.

(** The window receives every record the worker emits: [result_signal] is
    connected to [add_result]. *)
Definition show_event (app : App) (e : event) : App :=
  match e with
  | ResultSignal data => add_result data app
  | _ => app
  end.

Definition show_events (app : App) (tr : list event) : App :=
  fold_left show_event tr app.

(** [send_captcha]: an empty input is not handed to the worker. *)
Definition send_captcha (code : str) (worker : Worker) : Worker :=
  if nonempty code then receive_captcha code worker else worker.

(** The characters [ILLEGAL_CHARACTERS_RE] matches: the control
    characters below 32 other than tab, line feed and carriage return. *)
Definition illegal_character (c : char) : bool :=
  ((c <=? 8) || (11 <=? c) && (c <=? 12) || (14 <=? c) && (c <=? 31))%N.

(** [re.sub(ILLEGAL_CHARACTERS_RE, empty, v)]. *)
Definition sanitize (v : str) : str :=
  filter (fun c => negb (illegal_character c)) v.

(** The rows [export_data] hands to the spreadsheet writer; every field of
    a record is a string. *)
Definition clean_row (row : record) : record :=
  {| search_term := sanitize (search_term row);
     variant := sanitize (variant row);
     status := sanitize (status row);
     brand := sanitize (brand row);
     reg_no := sanitize (reg_no row);
     owner := sanitize (owner row);
     goods := sanitize (goods row) |}.

Definition clean_results (rows : list record) : list record :=
  map clean_row rows.

(** ** Counting in traces *)

(** The links of the result listings read at the top of a page. *)
Definition links_of (e : event) : nat :=
  match e with
  | Did FindLinks (Count n) => n
  | _ => 0
  end.

Definition links_counted (tr : list event) : nat :=
  list_sum (map links_of tr).

Definition records_emitted (tr : list event) : nat :=
  length (filter is_result tr).

(** The product of the numbers of alternatives of the characters. *)
Definition alternatives (text : str) : nat :=
  fold_right (fun ch n => length (options_of ch) * n) 1 text.

(** ** Predicates on strings *)

(** A string without whitespace. *)
Definition spaceless (w : str) : bool :=
  forallb (fun c => negb (isspace c)) w.

(** ** Predicates on the operator's calls *)

(** Every captcha code the operator sends satisfies [P]. *)
Definition sends (P : str -> Prop) (c : operator_call) : Prop :=
  match c with
  | CallReceiveCaptcha code => P code
  | _ => True
  end.

(** The worker holds a captcha code that satisfies [P]. *)
Definition holds_code (P : str -> Prop) (self : Worker) : Prop :=
  exists code, captcha_code self = Some code /\ P code.

(** A fresh worker that the operator has paused; [calls] are the calls
    the operator makes afterwards. *)
Definition paused_world (calls : list (list operator_call)) : World :=
  {| self := toggle_pause new_worker; answers := []; operator := calls |}.

(** The operator enters a code when the worker polls for the first
    time. *)
Definition entry_world : World :=
  {| self := new_worker;
     answers := [Image []];
     operator := [ []; [CallReceiveCaptcha (u "12345")] ] |}.

(** ** Worlds for the detail view of a result *)

(** An answer that lets the reading of a field end: a text or an
    exception. *)
Definition text_or_raise (a : answer) : bool :=
  match a with Text _ | Raise _ => true | _ => false end.

(** The three fields of a detail view are read, with whitespace around
    them. *)
Definition detail_world : World :=
  {| self := new_worker;
     answers := [ Text (u " 12345 "); Text (u "Owner"); Text (u "Goods ") ];
     operator := [] |}.

(** ** Counting in a scrape *)

(** The events of the visit of at most [n] result links: at most [n]
    records, and no listing read at the top of a page. *)
Definition visits (n : nat) (tr : list event) : Prop :=
  records_emitted tr <= n /\ links_counted tr = 0.

(** ** The events of the search of a name *)

(** A record made from a detail view, for the search term [st] and the
    variant [var]. *)
Definition worker_record (st var : str) (r : record) : Prop :=
  search_term r = st /\ variant r = var /\ length (goods r) <= 100
  /\ (status r = u "دارای تعارض" \/ status r = u "خطا").

(** What the search of the variant [var] of [name] may do: its records
    are made from detail views and carry [name] and [var]; the title it
    types is [var] and the class codes are [classes]; the errors it logs
    are cut to 50 characters; it announces no name and does not end the
    run. *)
Definition search_event (classes name var : str) (e : event) : Prop :=
  match e with
  | ResultSignal r => worker_record name var r
  | Did (FillTitle v) _ => v = var
  | Did (FillClasses c) _ => c = classes
  | Did SetupDriver _ | Did (Get _) _ | Did (ReadNames _) _
  | Did DismissNotice _ | Did QuitDriver _ => False
  | Did _ _ => True
  | ProgressSignal _ _ | FinishedSignal => False
  | LogSignal (LogAnalysing _) | LogSignal (LogCoreRoot _)
  | LogSignal (LogVariantCount _) | LogSignal (LogFileError _) => False
  | LogSignal (LogNetworkError e) => length e <= 50
  | LogSignal _ => True
  | CaptchaSignal _ | StatusSignal _ => True
  end.

Definition name_event (classes name : str) (variants : list str) (e : event)
  : Prop :=
  exists var, In var variants /\ search_event classes name var e.

(** ** The names of a run *)

(** The names [run] keeps of the lines of the file: the lines that are
    not blank, stripped. *)
Definition names_of (ls : list str) : list str :=
  map strip (filter (fun l => nonempty (strip l)) ls).

(** The names the worker announces in its log, and the progress it
    reports, in order. *)
Definition announced (tr : list event) : list str :=
  flat_map (fun e => match e with
                     | LogSignal (LogAnalysing name) => [name]
                     | _ => []
                     end) tr.

Definition progress_of (tr : list event) : list (nat * nat) :=
  flat_map (fun e => match e with
                     | ProgressSignal i total => [(i, total)]
                     | _ => []
                     end) tr.

(** The first [k] of [names] were announced, in order, each with its
    rank counted from [idx] and the total. *)
Definition announces (idx total : nat) (names : list str) (k : nat)
           (tr : list event) : Prop :=
  k <= length names
  /\ announced tr = firstn k names
  /\ progress_of tr = map (fun i => (idx + i, total)) (seq 1 k).

(** The requests that are not inside a [try] of [run]. *)
Definition unguarded (r : request) : bool :=
  match r with
  | SetupDriver | Get _ | QuitDriver => true
  | _ => false
  end.

(** The last event of a trace. *)
Definition ends_with (e : event) (tr : list event) : Prop :=
  exists tr0, tr = tr0 ++ [e].

(** ** Reading the window *)

(** The records of a trace, in order. *)
Definition records_of (tr : list event) : list record :=
  flat_map (fun e => match e with ResultSignal r => [r] | _ => [] end) tr.

(** The seven cells of the row of a record. *)
Definition fields_of (r : record) : list str :=
  [ search_term r; variant r; status r; brand r; reg_no r; owner r; goods r ].

(** The records of a trace that report a conflict. *)
Definition is_conflict (e : event) : bool :=
  match e with
  | ResultSignal r => str_eqb (status r) (u "دارای تعارض")
  | _ => false
  end.

Definition conflicts (tr : list event) : nat :=
  length (filter is_conflict tr).

(** A record of the worker about one of [names]: made from a detail
    view, or the summary of a name without conflict. *)
Definition known_record (names : list str) (r : record) : Prop :=
  In (search_term r) names
  /\ (status r = u "دارای تعارض" \/ status r = u "خطا"
      \/ r = summary_record (search_term r)).

(** ** Basic facts about strings and lists *)

Lemma str_eqb_eq (a b : str) : str_eqb a b = true <-> a = b.
Proof.
  revert b; induction a as [|x a IH]; intros [|y b]; simpl;
    try (split; [discriminate | intros E; discriminate E]);
    try (split; reflexivity).
  unfold char_eqb. rewrite andb_true_iff, N.eqb_eq, IH.
  split; [intros [-> ->]; reflexivity | intros E; injection E; auto].
Qed.

Lemma str_eqb_refl (a : str) : str_eqb a a = true.
Proof. apply str_eqb_eq; reflexivity. Qed.

Lemma mem_In (x : str) (l : list str) : mem x l = true <-> In x l.
Proof.
  induction l as [|y l IH]; simpl.
  - split; [discriminate | tauto].
  - rewrite orb_true_iff, str_eqb_eq, IH. intuition congruence.
Qed.

Lemma first_seen_In (l : list str) (x : str) : In x (first_seen l) <-> In x l.
Proof.
  induction l as [|y l IH]; simpl; [tauto|].
  rewrite filter_In, IH, negb_true_iff.
  destruct (str_eqb x y) eqn:E.
  - apply str_eqb_eq in E. intuition congruence.
  - split; [tauto|]. intros [->|Hx]; [|tauto].
    rewrite str_eqb_refl in E; discriminate.
Qed.

Lemma first_seen_NoDup (l : list str) : NoDup (first_seen l).
Proof.
  induction l as [|y l IH]; simpl; constructor.
  - rewrite filter_In, str_eqb_refl. simpl. intros [_ E]; discriminate.
  - apply NoDup_filter, IH.
Qed.

Definition first_seen_runtime : Runtime :=
  {| isalnum := isalnum_latin_arabic;
     list_of_set := first_seen;
     list_of_set_NoDup := first_seen_NoDup;
     list_of_set_In := first_seen_In |}.

Lemma last_first_In (l : list str) (x : str) : In x (last_first l) <-> In x l.
Proof. unfold last_first. rewrite <- in_rev. apply first_seen_In. Qed.

Lemma last_first_NoDup (l : list str) : NoDup (last_first l).
Proof. apply NoDup_rev, first_seen_NoDup. Qed.

Definition last_first_runtime : Runtime :=
  {| isalnum := isalnum_latin_arabic;
     list_of_set := last_first;
     list_of_set_NoDup := last_first_NoDup;
     list_of_set_In := last_first_In |}.

Lemma firstn_In (A : Type) (n : nat) (l : list A) (x : A) :
  In x (firstn n l) -> In x l.
Proof.
  intros Hx. rewrite <- (firstn_skipn n l). apply in_or_app; auto.
Qed.

Lemma firstn_NoDup (A : Type) (n : nat) (l : list A) :
  NoDup l -> NoDup (firstn n l).
Proof.
  intros Hl. rewrite <- (firstn_skipn n l) in Hl.
  exact (NoDup_app_remove_r _ _ Hl).
Qed.

Lemma lstrip_spaces (s : str) : Forall (fun c => isspace c = true) s -> lstrip s = [].
Proof.
  induction 1 as [|c s Hc _ IH]; simpl; [reflexivity|].
  rewrite Hc. exact IH.
Qed.

Lemma strip_spaces (s : str) : Forall (fun c => isspace c = true) s -> strip s = [].
Proof.
  intros Hs. unfold strip, rstrip. rewrite (lstrip_spaces Hs). reflexivity.
Qed.

(** Every token of [split] has at least one character. *)
Lemma split_from_nonempty (s tok : str) :
  Forall (fun w => w <> []) (split_from tok s).
Proof.
  assert (Hrev : forall c (t : str), rev (c :: t) <> []).
  { intros c t E. apply (f_equal (@length char)) in E.
    rewrite length_rev in E. discriminate E. }
  revert tok; induction s as [|c s IH]; intros tok; simpl.
  - destruct tok; constructor; auto.
  - destruct (isspace c); [|apply IH].
    destruct tok; [apply IH|]. constructor; auto.
Qed.

Lemma join_nonempty (sep w : str) (l : list str) :
  w <> [] -> join sep (w :: l) <> [].
Proof.
  intros Hw. simpl. destruct l; [exact Hw|].
  destruct w; [congruence | discriminate].
Qed.

(** ** Properties of the variant engine *)

Section VariantEngine.
Context `{Runtime}.

Lemma analyze_name_In (raw_input x : str) :
  In x (fst (analyze_name raw_input)) <-> In x (variants_added raw_input).
Proof. apply list_of_set_In. Qed.

Lemma variants_added_In (raw_input x : str) :
  In x (variants_added raw_input) <->
  base_variant raw_input x
  \/ In x (confusables_added (core_root_of raw_input)).
Proof.
  unfold variants_added, base_variant.
  repeat rewrite in_app_iff.
  assert (Ht : In x (match translation_of raw_input with
                     | Some t => [t] | None => [] end)
               <-> translation_of raw_input = Some x).
  { destruct (translation_of raw_input); simpl;
      intuition congruence. }
  assert (Hr : In x (if str_eqb (core_root_of raw_input)
                          (clean_name_of raw_input)
                     then [] else [core_root_of raw_input])
               <-> x = core_root_of raw_input
                   /\ core_root_of raw_input <> clean_name_of raw_input).
  { destruct (str_eqb _ _) eqn:E; simpl.
    - apply str_eqb_eq in E. intuition congruence.
    - assert (core_root_of raw_input <> clean_name_of raw_input).
      { intros E'. apply str_eqb_eq in E'. congruence. }
      intuition congruence. }
  rewrite Ht, Hr. simpl. intuition congruence.
Qed.
End VariantEngine.

Section VariantEngineClaims.
Context `{Runtime}.

(** C3 (as amended): for a core root shorter than 15 characters the
    confusable expansion [generate_permutations] lists the Cartesian
    product of the per-character alternatives without duplicates; when it
    has fewer than 32 members all of them are added to the variant set,
    and otherwise exactly 15 distinct members are added, the first 15 of
    the list obtained from the deduplicating set (whose order is the
    set's own, not the product's).  Nothing else enters the variant set
    besides the translation, the clean name, the root and its
    transliteration. *)
Theorem confusable_expansion_bounded (raw_input : str) :
  let root := core_root_of raw_input in
  let perms := generate_permutations root in
  length root < 15 ->
  NoDup perms
  /\ (forall x, In x perms <-> In x (joined_product root))
  /\ (length perms < 32 ->
      confusables_added root = perms
      /\ incl perms (fst (analyze_name raw_input)))
  /\ (32 <= length perms ->
      confusables_added root = firstn 15 perms
      /\ length (firstn 15 perms) = 15
      /\ NoDup (firstn 15 perms)
      /\ incl (firstn 15 perms) (joined_product root)
      /\ incl (firstn 15 perms) (fst (analyze_name raw_input)))
  /\ (forall x, In x (fst (analyze_name raw_input)) <->
                base_variant raw_input x \/ In x (confusables_added root)).
Proof.
  intros root perms Hlen.
  assert (Hnd : NoDup perms) by apply list_of_set_NoDup.
  assert (Hin : forall x, In x perms <-> In x (joined_product root))
    by (intros x; apply list_of_set_In).
  assert (Hall : forall x, In x (fst (analyze_name raw_input)) <->
                 base_variant raw_input x \/ In x (confusables_added root)).
  { intros x. rewrite analyze_name_In. apply variants_added_In. }
  assert (Hroot : (length root <? 15) = true) by (apply Nat.ltb_lt; exact Hlen).
  split; [exact Hnd|]. split; [exact Hin|].
  split; [|split; [|exact Hall]].
  - intros Hsmall.
    assert (E : confusables_added root = perms).
    { unfold confusables_added. rewrite Hroot. fold perms.
      apply Nat.ltb_lt in Hsmall. rewrite Hsmall. reflexivity. }
    split; [exact E|].
    intros x Hx. apply Hall. right. rewrite E. exact Hx.
  - intros Hbig.
    assert (E : confusables_added root = firstn 15 perms).
    { unfold confusables_added. rewrite Hroot. fold perms.
      apply Nat.ltb_ge in Hbig. rewrite Hbig. reflexivity. }
    split; [exact E|].
    split; [rewrite length_firstn; lia|].
    split; [apply firstn_NoDup; exact Hnd|].
    split.
    + intros x Hx. apply Hin. eapply firstn_In; exact Hx.
    + intros x Hx. apply Hall. right. rewrite E. exact Hx.
Qed.

(** C4: when the core root has 15 characters or more, no confusable
    expansion takes place and the variant set is exactly the
    translation (if any), the clean name, the core root (when it differs
    from the clean name) and the transliterated core root. *)
Theorem long_root_skips_expansion (raw_input : str) :
  15 <= length (core_root_of raw_input) ->
  confusables_added (core_root_of raw_input) = []
  /\ forall x, In x (fst (analyze_name raw_input)) <->
               base_variant raw_input x.
Proof.
  intros Hlen.
  assert (E : confusables_added (core_root_of raw_input) = []).
  { unfold confusables_added. apply Nat.ltb_ge in Hlen.
    rewrite Hlen. reflexivity. }
  split; [exact E|].
  intros x. rewrite analyze_name_In, variants_added_In, E.
  simpl. tauto.
Qed.

(** C6: the variant set returned by [analyze_name] contains the
    normalized clean name and the transliteration of the core root, and
    lists no string twice. *)
Theorem analyze_name_members (raw_input : str) :
  In (clean_name_of raw_input) (fst (analyze_name raw_input))
  /\ In (fingilish_of (core_root_of raw_input)) (fst (analyze_name raw_input))
  /\ NoDup (fst (analyze_name raw_input)).
Proof.
  repeat split.
  - apply analyze_name_In, variants_added_In. left. right. left. reflexivity.
  - apply analyze_name_In, variants_added_In. left.
    right. right. right. reflexivity.
  - apply list_of_set_NoDup.
Qed.

(** C10: when the text outside the parenthesised segment holds only
    punctuation, symbols and whitespace, the clean name is empty, the
    core root is empty, and the empty string is a member of the variant
    set. *)
Theorem punctuation_only_yields_empty_variant (raw_input : str) :
  Forall (fun c => is_word c = false \/ isspace c = true)
         (persian_part_of raw_input) ->
  clean_name_of raw_input = []
  /\ core_root_of raw_input = []
  /\ In [] (fst (analyze_name raw_input)).
Proof.
  intros Hp.
  assert (Hc : clean_name_of raw_input = []).
  { unfold clean_name_of. apply strip_spaces.
    unfold sub_nonword. apply Forall_forall. intros c Hc.
    apply filter_In in Hc. destruct Hc as [Hc Hk].
    rewrite Forall_forall in Hp. destruct (Hp c Hc) as [Hw|Hs]; [|exact Hs].
    rewrite Hw in Hk. exact Hk. }
  split; [exact Hc|].
  split; [unfold core_root_of; rewrite Hc; reflexivity|].
  apply analyze_name_In, variants_added_In. left. right. left.
  symmetry. exact Hc.
Qed.
End VariantEngineClaims.

(** C5 (as amended): core-root extraction returns a non-empty string for
    every non-empty input, and whenever removing the stop words leaves no
    token it returns the input text unchanged. *)
Theorem extract_core_root_nonempty (text : str) :
  text <> [] ->
  extract_core_root text <> []
  /\ (filter (fun w => negb (mem w stop_words)) (split text) = [] ->
      extract_core_root text = text).
Proof.
  intros Ht. unfold extract_core_root.
  pose proof (split_from_nonempty text []) as Hs. fold (split text) in Hs.
  destruct (filter _ (split text)) as [|w l] eqn:E.
  - split; [exact Ht | reflexivity].
  - split; [|discriminate].
    apply join_nonempty.
    assert (Hw : In w (split text)).
    { eapply (proj1 (filter_In _ _ _)). rewrite E. left. reflexivity. }
    rewrite Forall_forall in Hs. exact (Hs w Hw).
Qed.

(** *** Runs of the variant engine *)

Lemma confusable_expansion_bounded_witness :
  length (@core_root_of first_seen_runtime (u "سسسس")) < 15
  /\ length (@confusables_added first_seen_runtime (u "سسسس")) = 15
  /\ length (@generate_permutations first_seen_runtime (u "سسسس")) = 81.
Proof.
  assert (Hlen : length (@core_root_of first_seen_runtime (u "سسسس")) < 15)
    by (vm_compute; lia).
  destruct (@confusable_expansion_bounded first_seen_runtime (u "سسسس") Hlen)
    as (_ & _ & _ & Hbig & _).
  split; [exact Hlen|].
  assert (Hn : length (@generate_permutations first_seen_runtime (u "سسسس")) = 81)
    by (vm_compute; reflexivity).
  split; [|exact Hn].
  change (@core_root_of first_seen_runtime (u "سسسس")) with (u "سسسس") in Hbig.
  destruct Hbig as (E & L & _); [rewrite Hn; lia|].
  rewrite E. exact L.
Defined.

(** C3 as stated fails: under a set order that lists members last-inserted
    first, the root [سسسس] has 81 confusables, [سسسص] is the second
    member of the product in iteration order, and it is not a member of
    the variant set. *)
Lemma confusable_expansion_not_in_product_order :
  length (@core_root_of last_first_runtime (u "سسسس")) < 15
  /\ 32 <= length (@generate_permutations last_first_runtime
                     (@core_root_of last_first_runtime (u "سسسس")))
  /\ In (u "سسسص")
        (firstn 15 (first_seen (joined_product
                      (@core_root_of last_first_runtime (u "سسسس")))))
  /\ ~ In (u "سسسص") (fst (@analyze_name last_first_runtime (u "سسسس"))).
Proof.
  split; [vm_compute; lia|].
  split; [vm_compute; lia|].
  split.
  - apply mem_In. vm_compute. reflexivity.
  - intros Hin. apply mem_In in Hin. vm_compute in Hin. discriminate Hin.
Qed.

Lemma long_root_skips_expansion_witness :
  15 <= length (@core_root_of first_seen_runtime (u "نان و شیرینی گلستان"))
  /\ @confusables_added first_seen_runtime
       (@core_root_of first_seen_runtime (u "نان و شیرینی گلستان")) = [].
Proof.
  assert (Hlen : 15 <= length (@core_root_of first_seen_runtime
                                 (u "نان و شیرینی گلستان")))
    by (vm_compute; lia).
  split; [exact Hlen|].
  exact (proj1 (@long_root_skips_expansion first_seen_runtime _ Hlen)).
Defined.

Lemma punctuation_only_yields_empty_variant_witness :
  In [] (fst (@analyze_name first_seen_runtime (u "!!! (Apple)"))).
Proof.
  refine (proj2 (proj2 (@punctuation_only_yields_empty_variant
                          first_seen_runtime (u "!!! (Apple)") _))).
  vm_compute. repeat constructor.
Defined.

(** C5 as stated fails on the empty string, which is its own core root. *)
Lemma extract_core_root_of_empty : extract_core_root [] = [].
Proof. reflexivity. Qed.

Lemma extract_core_root_nonempty_witness :
  extract_core_root (u "شرکت توسعه") = u "شرکت توسعه".
Proof.
  refine (proj2 (@extract_core_root_nonempty (u "شرکت توسعه") _) _).
  - vm_compute. discriminate.
  - vm_compute. reflexivity.
Defined.

(** The name of the docstring of [analyze_name]: [تک] is itself a stop
    word, so the core root is [نان], and the four variants are the
    translation, the clean name, the root and its transliteration. *)
Example analyze_name_tak_nan :
  @analyze_name first_seen_runtime (u "شرکت تک نان جنوب (Tak Nan)") =
  ([u "Tak Nan"; u "شرکت تک نان جنوب"; u "نان"; u "nan"],
   {| layer3_translation := Some (u "Tak Nan");
      layer4_core_root := u "نان";
      layer3_fingilish := u "nan" |}).
Proof. vm_compute. reflexivity. Qed.

(** ** Reasoning about worker computations *)

Section SpecRules.
Variables A B : Type.
Variable Q : A -> list event -> Prop.
Variable R : exn -> list event -> Prop.

Lemma spec_ret (a : A) : Q a [] -> spec (ret a) Q R.
Proof. intros HQ w. exact HQ. Qed.

Lemma spec_cut : spec (@cut_off A) Q R.
Proof. intros w. exact I. Qed.

Lemma spec_conseq (m : M A) (Q' : A -> list event -> Prop)
      (R' : exn -> list event -> Prop) :
  spec m Q' R' ->
  (forall a tr, Q' a tr -> Q a tr) ->
  (forall e tr, R' e tr -> R e tr) ->
  spec m Q R.
Proof.
  intros Hm HQ HR w. specialize (Hm w).
  destruct (m w) as [[[a|e|] w1] tr]; auto.
Qed.

Lemma spec_bind (m : M B) (f : B -> M A) :
  spec m (fun b tr1 => spec (f b) (fun a tr2 => Q a (tr1 ++ tr2))
                            (fun e tr2 => R e (tr1 ++ tr2)))
       R ->
  spec (bind m f) Q R.
Proof.
  intros Hm w. unfold bind. specialize (Hm w).
  destruct (m w) as [[[b|e|] w1] tr1]; auto.
  specialize (Hm w1).
  destruct (f b w1) as [[[a|e|] w2] tr2]; auto.
Qed.

Lemma spec_try_except (m : M A) (handler : exn -> M A) :
  spec m Q (fun e tr1 => spec (handler e) (fun a tr2 => Q a (tr1 ++ tr2))
                              (fun e' tr2 => R e' (tr1 ++ tr2))) ->
  spec (try_except m handler) Q R.
Proof.
  intros Hm w. unfold try_except. specialize (Hm w).
  destruct (m w) as [[[a|e|] w1] tr1]; auto.
  specialize (Hm w1).
  destruct (handler e w1) as [[[a|e'|] w2] tr2]; auto.
Qed.

Lemma spec_try_except_timeout (m handler : M A) :
  spec m Q (fun e tr1 =>
              match e with
              | TimeoutException _ =>
                spec handler (fun a tr2 => Q a (tr1 ++ tr2))
                     (fun e' tr2 => R e' (tr1 ++ tr2))
              | OtherException _ => R e tr1
              end) ->
  spec (try_except_timeout m handler) Q R.
Proof.
  intros Hm w. unfold try_except_timeout. specialize (Hm w).
  destruct (m w) as [[[a|[msg|msg]|] w1] tr1]; auto.
  specialize (Hm w1).
  destruct (handler w1) as [[[a|e'|] w2] tr2]; auto.
Qed.
End SpecRules.

Section SpecPrimitives.
Variable R : exn -> list event -> Prop.

Lemma spec_emit (Q : unit -> list event -> Prop) (e : event) :
  Q tt [e] -> spec (emit e) Q R.
Proof. intros HQ w. exact HQ. Qed.

Lemma spec_call (Q : answer -> list event -> Prop) (r : request) :
  (forall a, not_raise a -> Q a [Did r a]) ->
  (forall e, R e [Did r (Raise e)]) ->
  spec (call r) Q R.
Proof.
  intros HQ HR w. unfold call.
  destruct (answers w) as [|a rest]; [exact I|].
  destruct a; try (apply HQ; exact I). apply HR.
Qed.

Lemma spec_call_unit (Q : unit -> list event -> Prop) (r : request) :
  (forall a, not_raise a -> Q tt [Did r a]) ->
  (forall e, R e [Did r (Raise e)]) ->
  spec (call_unit r) Q R.
Proof.
  intros HQ HR. unfold call_unit. apply spec_bind, spec_call.
  - intros a Ha. apply spec_ret. rewrite app_nil_r. auto.
  - exact HR.
Qed.

Lemma spec_call_text (Q : str -> list event -> Prop) (r : request) :
  (forall s, Q s [Did r (Text s)]) ->
  (forall e, R e [Did r (Raise e)]) ->
  spec (call_text r) Q R.
Proof.
  intros HQ HR. unfold call_text. apply spec_bind, spec_call.
  - intros a Ha. destruct a; try apply spec_cut.
    apply spec_ret. rewrite app_nil_r. auto.
  - exact HR.
Qed.

Lemma spec_call_count (Q : nat -> list event -> Prop) (r : request) :
  (forall n, Q n [Did r (Count n)]) ->
  (forall e, R e [Did r (Raise e)]) ->
  spec (call_count r) Q R.
Proof.
  intros HQ HR. unfold call_count. apply spec_bind, spec_call.
  - intros a Ha. destruct a; try apply spec_cut.
    apply spec_ret. rewrite app_nil_r. auto.
  - exact HR.
Qed.

Lemma spec_call_flag (Q : bool -> list event -> Prop) (r : request) :
  (forall b, Q b [Did r (Flag b)]) ->
  (forall e, R e [Did r (Raise e)]) ->
  spec (call_flag r) Q R.
Proof.
  intros HQ HR. unfold call_flag. apply spec_bind, spec_call.
  - intros a Ha. destruct a; try apply spec_cut.
    apply spec_ret. rewrite app_nil_r. auto.
  - exact HR.
Qed.

Lemma spec_call_lines (Q : list str -> list event -> Prop) (r : request) :
  (forall ls, Q ls [Did r (Lines ls)]) ->
  (forall e, R e [Did r (Raise e)]) ->
  spec (call_lines r) Q R.
Proof.
  intros HQ HR. unfold call_lines. apply spec_bind, spec_call.
  - intros a Ha. destruct a; try apply spec_cut.
    apply spec_ret. rewrite app_nil_r. auto.
  - exact HR.
Qed.

Lemma spec_call_image (Q : list N -> list event -> Prop) (r : request) :
  (forall png, Q png [Did r (Image png)]) ->
  (forall e, R e [Did r (Raise e)]) ->
  spec (call_image r) Q R.
Proof.
  intros HQ HR. unfold call_image. apply spec_bind, spec_call.
  - intros a Ha. destruct a; try apply spec_cut.
    apply spec_ret. rewrite app_nil_r. auto.
  - exact HR.
Qed.

Lemma spec_read (A : Type) (Q : A -> list event -> Prop)
      (field : Worker -> A) :
  (forall v, Q v []) -> spec (read field) Q R.
Proof.
  intros HQ w. unfold read, bind, sync. simpl. apply HQ.
Qed.

Lemma spec_write_waiting (Q : unit -> list event -> Prop) (b : bool) :
  Q tt [] -> spec (write_waiting b) Q R.
Proof.
  intros HQ w. unfold write_waiting, bind, sync. simpl. apply HQ.
Qed.
End SpecPrimitives.

(** ** Running a computation step by step *)

Section Steps.
Variables A B : Type.

Lemma bind_done (m : M A) (f : A -> M B) (w w1 w2 : World) (a : A)
      (o : outcome B) (tr1 tr2 : list event) :
  m w = (Done a, w1, tr1) -> f a w1 = (o, w2, tr2) ->
  bind m f w = (o, w2, tr1 ++ tr2).
Proof. intros Hm Hf. unfold bind. rewrite Hm, Hf. reflexivity. Qed.






End Steps.




Lemma run_eq (A : Type) (m : M A) (w w1 w' : World) (o : outcome A)
      (tr tr' : list event) :
  m w = (o, w1, tr) -> w1 = w' -> tr = tr' -> m w = (o, w', tr').
Proof. intros Hm <- <-. exact Hm. Qed.




Lemma read_absorb (A : Type) (field : Worker -> A) (w : World) :
  read field w = (Done (field (self (absorb w))), absorb w, []).
Proof. reflexivity. Qed.

Lemma answers_absorb (w : World) : answers (absorb w) = answers w.
Proof. unfold absorb. destruct (operator w); reflexivity. Qed.

(** ** The operator's calls *)

(** C9 (as amended): a call of [receive_captcha] while no acquisition is
    pending leaves the running and paused flags as they are and the
    waiting flag false, and stores the submitted code as the worker's
    captcha code; it changes nothing exactly when that code was stored
    already. *)
Theorem receive_captcha_when_not_waiting (code : str) (self : Worker) :
  waiting_for_captcha self = false ->
  is_running (receive_captcha code self) = is_running self
  /\ is_paused (receive_captcha code self) = is_paused self
  /\ waiting_for_captcha (receive_captcha code self) = waiting_for_captcha self
  /\ captcha_code (receive_captcha code self) = Some code
  /\ (receive_captcha code self = self <-> captcha_code self = Some code).
Proof.
  intros Hw. destruct self as [r p c wt]. simpl in *. subst wt.
  repeat split; try reflexivity.
  - intros E. injection E. auto.
  - intros ->. reflexivity.
Qed.

Lemma receive_captcha_when_not_waiting_witness :
  captcha_code (receive_captcha (u "12345") new_worker) = Some (u "12345").
Proof.
  exact (proj1 (proj2 (proj2 (proj2
           (@receive_captcha_when_not_waiting (u "12345") new_worker eq_refl))))).
Defined.

(** C9 as stated fails: on a fresh worker, which waits for no captcha, the
    call changes the stored captcha code. *)
Lemma receive_captcha_changes_idle_worker :
  waiting_for_captcha new_worker = false
  /\ captcha_code new_worker = None
  /\ captcha_code (receive_captcha (u "12345") new_worker) = Some (u "12345").
Proof. repeat split. Qed.

(** ** The start of a run *)

Section RunStart.
Context `{Runtime}.
Variable classes : str.

(** C7 (as amended): when the name list cannot be read, the error is
    logged and the worker returns at once; by then the browser session
    has been set up and the search page opened, and nothing else has
    happened: no captcha is acquired, no search is attempted, no record
    is emitted. *)
Theorem unreadable_name_list (fuel : nat) (file_path : str) (w : World)
        (a1 a2 : answer) (e : exn) (rest : list answer) :
  answers w = a1 :: a2 :: Raise e :: rest ->
  not_raise a1 -> not_raise a2 ->
  run classes fuel file_path w =
  (Done tt,
   {| self := self w; answers := rest; operator := operator w |},
   [ Did SetupDriver a1;
     Did (Get (u "https://ipm.ssaa.ir/Search-Trademark")) a2;
     Did (ReadNames file_path) (Raise e);
     LogSignal (LogFileError (exn_str e)) ]).
Proof.
  intros Ha H1 H2.
  unfold run, call_unit, call_lines, try_except, bind, call.
  rewrite Ha.
  destruct a1; try contradiction; destruct a2; try contradiction;
    reflexivity.
Qed.
End RunStart.

Lemma unreadable_name_list_witness :
  @run first_seen_runtime (u "5,31") 3 (u "Name.txt") unreadable_world =
  (Done tt,
   {| self := new_worker; answers := []; operator := [] |},
   [ Did SetupDriver Returned;
     Did (Get (u "https://ipm.ssaa.ir/Search-Trademark")) Returned;
     Did (ReadNames (u "Name.txt"))
         (Raise (OtherException (u "No such file or directory")));
     LogSignal (LogFileError (u "No such file or directory")) ]).
Proof.
  eapply run_eq.
  - exact (@unreadable_name_list first_seen_runtime (u "5,31") 3
             (u "Name.txt") unreadable_world Returned Returned
             (OtherException (u "No such file or directory")) [] eq_refl I I).
  - reflexivity.
  - reflexivity.
Defined.

(** C7 as stated fails: when the name list cannot be opened, the browser
    session has been set up and the search page requested before the
    error is logged. *)
Lemma browser_started_before_name_list :
  snd (@run first_seen_runtime (u "5,31") 3 (u "Name.txt") unreadable_world) =
  [ Did SetupDriver Returned;
    Did (Get (u "https://ipm.ssaa.ir/Search-Trademark")) Returned;
    Did (ReadNames (u "Name.txt"))
        (Raise (OtherException (u "No such file or directory")));
    LogSignal (LogFileError (u "No such file or directory")) ].
Proof. vm_compute. reflexivity. Qed.

(** ** Events of the parts of a run *)

Lemma plain_nil : plain [].
Proof. repeat split. Qed.

Lemma plain_app (tr1 tr2 : list event) :
  plain tr1 -> plain tr2 -> plain (tr1 ++ tr2).
Proof.
  unfold plain. rewrite !existsb_app.
  intros (-> & -> & ->) (-> & -> & ->). repeat split.
Qed.

Lemma summary_is_result (tr : list event) :
  existsb is_result tr = false -> existsb is_summary tr = false.
Proof.
  induction tr as [|e tr IH]; simpl; [reflexivity|].
  rewrite !orb_false_iff. intros [He Htr]. split; [|exact (IH Htr)].
  destruct e; try reflexivity. discriminate He.
Qed.

Lemma conflict_record_not_summary (st var title reg own gds : str) :
  has_free_status (conflict_record st var title reg own gds) = false.
Proof. reflexivity. Qed.

Lemma error_record_not_summary (st var title : str) :
  has_free_status (error_record st var title) = false.
Proof. reflexivity. Qed.

Lemma summary_record_is_summary (name : str) :
  has_free_status (summary_record name) = true.
Proof. reflexivity. Qed.

Lemma flag_step_plain (found : bool) (tr : list event) :
  plain tr -> flag_step found found tr.
Proof.
  intros (Hr & Hf & Hl). split; [apply summary_is_result, Hr|].
  destruct found; auto.
Qed.

Lemma flag_step_app (f0 f1 f2 : bool) (tr1 tr2 : list event) :
  flag_step f0 f1 tr1 -> flag_step f1 f2 tr2 -> flag_step f0 f2 (tr1 ++ tr2).
Proof.
  unfold flag_step. rewrite !existsb_app.
  intros [Hs1 H1] [Hs2 H2]. rewrite Hs1, Hs2. split; [reflexivity|].
  destruct f2.
  - destruct H2 as [-> | ->].
    + destruct H1 as [-> | ->]; auto.
    + right. apply orb_true_r.
  - destruct H2 as [-> H2]. destruct H1 as [-> H1].
    split; [reflexivity|].
    intros Hf. apply orb_false_iff in Hf. destruct Hf as [Hf1 Hf2].
    rewrite (H1 Hf1), (H2 Hf2). reflexivity.
Qed.

(** One step of symbolic execution of a computation under [spec]. *)
Ltac wp_step :=
  cbv beta;
  lazymatch goal with
  | |- spec (bind _ _) _ _ => apply spec_bind
  | |- spec (ret _) _ _ => apply spec_ret
  | |- spec (emit _) _ _ => apply spec_emit
  | |- spec cut_off _ _ => apply spec_cut
  | |- spec (try_except _ _) _ _ => apply spec_try_except
  | |- spec (try_except_timeout _ _) _ _ => apply spec_try_except_timeout
  | |- spec (read _) _ _ => apply spec_read; intros ?
  | |- spec (write_waiting _) _ _ => apply spec_write_waiting
  | |- spec (call_unit _) _ _ => apply spec_call_unit; [intros ? ? | intros ?]
  | |- spec (call_text _) _ _ => apply spec_call_text; intros ?
  | |- spec (call_count _) _ _ => apply spec_call_count; intros ?
  | |- spec (call_flag _) _ _ => apply spec_call_flag; intros ?
  | |- spec (call_lines _) _ _ => apply spec_call_lines; intros ?
  | |- spec (call_image _) _ _ => apply spec_call_image; intros ?
  | |- spec (if ?b then _ else _) _ _ => destruct b eqn:?
  | |- spec (match ?x with _ => _ end) _ _ => destruct x eqn:?
  | |- match ?e with TimeoutException _ => _ | OtherException _ => _ end =>
    destruct e
  end.

Ltac wp := repeat wp_step; cbv beta.

(** A part of a trace made of computed events and of plain parts is
    plain. *)
Ltac plain_events :=
  repeat first [ assumption
               | apply plain_nil
               | solve [repeat split]
               | apply plain_app ].

(** Use the specification [lem] of a part that cannot raise. *)
Ltac wp_use lem :=
  cbv beta;
  eapply spec_conseq;
  [ apply lem | cbv beta; intros ? ? ? | cbv beta; intros ? ? ?; try contradiction ].

Lemma pause_check_silent (fuel : nat) :
  spec (pause_check fuel) (fun _ tr => tr = []) (fun _ _ => False).
Proof.
  induction fuel as [|k IH]; simpl; wp; try reflexivity.
  eapply spec_conseq; [exact IH | simpl; auto | auto].
Qed.

Lemma wait_for_captcha_silent (fuel : nat) :
  spec (wait_for_captcha fuel) (fun _ tr => tr = []) (fun _ _ => False).
Proof.
  induction fuel as [|k IH]; simpl; wp; try reflexivity.
  eapply spec_conseq; [exact IH | simpl; auto | auto].
Qed.

#[local] Arguments has_free_status : simpl never.
#[local] Arguments u : simpl never.

Lemma get_captcha_image_plain (fuel : nat) :
  spec (get_captcha_image fuel) (fun _ tr => plain tr) (fun _ _ => False).
Proof.
  unfold get_captcha_image. wp.
  - wp_use wait_for_captcha_silent. subst. wp. plain_events.
  - plain_events.
Qed.

Lemma failed_listing_not_raise (r : request) (a : answer) :
  not_raise a -> failed_listing (Did r a) = false.
Proof. destruct r, a; simpl; try reflexivity; contradiction. Qed.

Ltac events :=
  unfold plain, item_events, scrape_returns, scrape_raises, flag_step in *;
  repeat match goal with
         | H : _ /\ _ |- _ => destruct H
         | H : (_ =? 0) = true |- _ => apply Nat.eqb_eq in H; subst
         | H : (?n =? 0) = false |- _ => destruct n; [discriminate H|clear H]
         end;
  rewrite ?existsb_app; cbn [existsb app];
  repeat match goal with
         | H : not_raise ?a |- context [failed_listing (Did ?r ?a)] =>
           rewrite (@failed_listing_not_raise r a H)
         end;
  simpl;
  rewrite ?conflict_record_not_summary, ?error_record_not_summary,
          ?summary_record_is_summary;
  repeat match goal with
         | H : existsb _ _ = _ |- _ => rewrite H
         end;
  simpl; auto;
  try solve [repeat split; intros; auto; solve [lia | discriminate | tauto]].

Lemma extract_data_events (st var title : str) (is_modal : bool) :
  spec (extract_data st var title is_modal)
       (fun _ tr => item_events tr) (fun _ _ => False).
Proof.
  unfold extract_data, gv. wp. all: events.
Qed.

Lemma scrape_item_events (st var : str) (i : nat) :
  spec (scrape_item st var i) (fun _ tr => item_events tr) (fun _ _ => False).
Proof.
  unfold scrape_item. wp. all: try solve [events].
  all: wp_use extract_data_events; wp; events.
Qed.

Lemma scrape_items_events (st var : str) (indices : list nat) :
  spec (scrape_items st var indices)
       (fun _ tr => item_events tr) (fun _ _ => False).
Proof.
  induction indices as [|i rest IH]; simpl; wp; [events|].
  wp_use scrape_item_events. wp; try solve [events].
  wp_use IH. events.
Qed.

Lemma scrape_pages_events (fuel : nat) (st var : str) (n0 : nat) :
  spec (scrape_pages fuel st var n0)
       (fun n tr => scrape_returns n0 n tr) (fun _ tr => scrape_raises tr).
Proof.
  revert n0; induction fuel as [|k IH]; intros n0; simpl; wp.
  all: try solve [events].
  wp_use scrape_items_events. wp.
  all: try solve [events].
  all: eapply spec_conseq; [apply IH | cbv beta; intros ? ? ? | cbv beta; intros ? ? ?].
  all: events.
Qed.

Lemma scrape_all_pages_events (fuel : nat) (st var : str) :
  spec (scrape_all_pages fuel st var)
       (fun n tr => scrape_returns 0 n tr) (fun _ tr => scrape_raises tr).
Proof. apply scrape_pages_events. Qed.

Lemma on_alert_plain (fuel : nat) (err : str) (code : option str) :
  spec (on_alert fuel err code) (fun _ tr => plain tr) (fun _ tr => plain tr).
Proof.
  unfold on_alert. wp; try solve [events].
  wp_use get_captcha_image_plain. wp. events.
Qed.

Lemma flag_step_scrape (found : bool) (n : nat) (tr : list event) :
  scrape_returns 0 n tr ->
  flag_step found (if 0 <? n then true else found) tr.
Proof.
  intros (Hs & _ & H0 & H1). split; [exact Hs|].
  destruct n as [|n]; simpl.
  - destruct (H0 eq_refl) as (Hr & Hf & Hl). destruct found; auto.
  - right. apply H1. lia.
Qed.

Lemma flag_step_scrape_raises (found : bool) (tr : list event) :
  scrape_raises tr -> flag_step found found tr.
Proof.
  intros (Hs & Hf). split; [exact Hs|].
  destruct found; auto. split; [reflexivity|].
  rewrite Hf. discriminate.
Qed.

(** A trace made of plain parts and of parts that move the flag moves the
    flag. *)
Ltac flag_events :=
  repeat first
         [ assumption
         | apply flag_step_plain; solve [plain_events]
         | eapply flag_step_app;
           [ apply flag_step_plain; solve [plain_events] | ]
         | eapply flag_step_app; [ eassumption | ] ].

Section VariantLoops.
Variable classes : str.

Lemma attempt_flag (fuel : nat) (name variant : str) (code : option str)
      (found : bool) :
  spec (attempt classes fuel name variant code found)
       (fun r tr => flag_step found (snd r) tr) (fun _ _ => False).
Proof.
  unfold attempt, submit_form. apply spec_try_except.
  eapply spec_conseq with
      (Q' := fun r tr => flag_step found (snd r) tr)
      (R' := fun _ tr => flag_step found found tr).
  - wp. all: try solve [flag_events].
    all: try (wp_use on_alert_plain; wp).
    all: try solve [flag_events].
    all: wp_use scrape_all_pages_events; wp.
    all: match goal with
         | H : scrape_returns 0 _ _ |- _ =>
           apply flag_step_scrape with (found := found) in H
         | H : scrape_raises _ |- _ =>
           apply flag_step_scrape_raises with (found := found) in H
         end.
    all: try solve [flag_events].
  - auto.
  - intros e tr Htr. wp.
    all: wp_use get_captcha_image_plain; wp; simpl; flag_events.
Qed.

Lemma search_variant_flag (fuel : nat) (name variant : str)
      (code : option str) (found : bool) :
  spec (search_variant classes fuel name variant code found)
       (fun r tr => flag_step found (snd r) tr) (fun _ _ => False).
Proof.
  revert code found; induction fuel as [|k IH]; intros code found; simpl; wp.
  - simpl. flag_events.
  - wp_use attempt_flag. wp; subst; simpl in *.
    + wp_use IH. flag_events.
    + flag_events.
    + flag_events.
Qed.

Lemma search_variants_flag (fuel : nat) (name : str) (variants : list str)
      (code : option str) (found : bool) :
  spec (search_variants classes fuel name variants code found)
       (fun r tr => flag_step found (snd r) tr) (fun _ _ => False).
Proof.
  revert code found; induction variants as [|v vs IH]; intros code found;
    simpl; wp.
  - simpl. flag_events.
  - simpl. flag_events.
  - wp_use pause_check_silent. subst. wp.
    wp_use search_variant_flag. wp_use IH. flag_events.
Qed.

End VariantLoops.

(** ** The verdict on a name *)

Lemma existsb_false_filter (A : Type) (p : A -> bool) (l : list A) :
  existsb p l = false -> filter p l = [].
Proof.
  induction l as [|x l IH]; simpl; [reflexivity|].
  rewrite orb_false_iff. intros [-> Hl]. exact (IH Hl).
Qed.

Lemma operate_keeps_stopped (calls : list operator_call) (self : Worker) :
  is_running self = false -> is_running (fold_left operate calls self) = false.
Proof.
  revert self; induction calls as [|c calls IH]; intros self Hs; simpl;
    [exact Hs|].
  apply IH. destruct c; simpl; auto.
Qed.

Lemma absorb_keeps_stopped (w : World) :
  is_running (self w) = false -> is_running (self (absorb w)) = false.
Proof.
  intros Hw. unfold absorb. destruct (operator w) as [|calls ops]; simpl.
  - exact Hw.
  - apply operate_keeps_stopped, Hw.
Qed.

Section NameVerdict.
Context `{Runtime}.
Variable classes : str.

Lemma process_name_verdict (fuel idx total : nat) (name : str)
      (code : option str) :
  spec (process_name classes fuel idx total name code)
       (fun r tr =>
          filter is_summary tr =
          (if snd r then [] else [ResultSignal (summary_record name)])
          /\ (snd r = true -> existsb links_found tr = true)
          /\ (snd r = false -> existsb failed_listing tr = false ->
              filter is_result tr = [ResultSignal (summary_record name)]))
       (fun _ _ => False).
Proof.
  unfold process_name. wp.
  wp_use pause_check_silent. subst. wp.
  destruct (analyze_name name) as [variants report]. wp.
  wp_use search_variants_flag. wp.
  all: destruct H0 as [Hs Hf]; destruct (snd a0); try discriminate.
  all: rewrite ?filter_app, ?existsb_app; cbn [filter existsb app is_summary is_result failed_listing links_found orb].
  all: rewrite ?summary_record_is_summary, (@existsb_false_filter _ _ _ Hs).
  - destruct Hf as [_ Hf]. repeat split; try discriminate.
    rewrite !orb_false_r. intros _ Hfail.
    rewrite (@existsb_false_filter _ _ _ (Hf Hfail)). reflexivity.
  - destruct Hf as [Hf|Hf]; [discriminate|].
    repeat split; try discriminate. intros _. rewrite Hf. reflexivity.
Qed.

(** C1 (as amended): for every name whose pass through the name loop runs
    to its end while the run is not stopped, exactly one summary record is
    emitted when the conflict flag of that pass is still unset and none
    when it is set; the flag is set only when a result listing with at
    least one link was read for one of the variants; and when the summary
    is emitted and no reading of a result listing failed, it is the only
    record of the name.  A name the loop does not reach because the run
    was stopped emits nothing. *)
Theorem summary_record_follows_flag :
  (forall fuel idx total name code w code' found w' tr,
      process_name classes fuel idx total name code w
      = (Done (code', found), w', tr) ->
      is_running (self w') = true ->
      filter is_summary tr =
      (if found then [] else [ResultSignal (summary_record name)])
      /\ (found = true -> existsb links_found tr = true)
      /\ (found = false -> existsb failed_listing tr = false ->
          filter is_result tr = [ResultSignal (summary_record name)]))
  /\ (forall fuel idx total names code w,
         is_running (self w) = false ->
         exists w', process_names classes fuel idx total names code w
                    = (Done tt, w', [])).
Proof.
  split.
  - intros fuel idx total name code w code' found w' tr E _.
    pose proof (process_name_verdict fuel idx total name code w) as Hs.
    rewrite E in Hs. exact Hs.
  - intros fuel idx total names code w Hw.
    destruct names as [|name rest]; simpl.
    + exists w. reflexivity.
    + unfold bind at 1, read, bind, sync. simpl.
      rewrite (absorb_keeps_stopped w Hw). simpl. eexists. reflexivity.
Qed.
End NameVerdict.

Lemma summary_record_follows_flag_witness :
  filter is_summary
         (snd (@process_name first_seen_runtime (u "5,31") 3 0 1 (u "ab")
                             (Some (u "12345")) clean_world))
  = [ResultSignal (summary_record (u "ab"))].
Proof.
  assert (E : @process_name first_seen_runtime (u "5,31") 3 0 1 (u "ab")
                            (Some (u "12345")) clean_world
              = (Done (Some (u "12345"), false),
                 {| self := new_worker; answers := []; operator := [] |},
                 snd (@process_name first_seen_runtime (u "5,31") 3 0 1
                                    (u "ab") (Some (u "12345")) clean_world)))
    by (vm_compute; reflexivity).
  exact (proj1 (proj1 (@summary_record_follows_flag first_seen_runtime
                         (u "5,31")) _ _ _ _ _ _ _ _ _ _ E eq_refl)).
Defined.

(** C1 as stated fails: in this run no record of any kind is emitted.  The
    name [ab] gets no summary record although none of its variants
    produced a conflict record: its listing held one link, which sets the
    flag, and the detail view of the link never opened.  The name [cd] gets
    none either: the run was stopped before it was reached. *)
Lemma names_without_record_or_summary :
  @run first_seen_runtime (u "5,31") 3 (u "Name.txt") unread_link_world =
  (Done tt,
   {| self := stop (receive_captcha (u "12345") new_worker);
      answers := []; operator := [] |},
   [ Did SetupDriver Returned;
     Did (Get (u "https://ipm.ssaa.ir/Search-Trademark")) Returned;
     Did (ReadNames (u "Name.txt")) (Lines [u "ab"; u "cd"]);
     Did DismissNotice Returned;
     Did Screenshot (Image []);
     CaptchaSignal [];
     LogSignal LogEnterCaptcha;
     StatusSignal (u "منتظر ورودی کاربر...");
     StatusSignal (u "در حال تحلیل...");
     ProgressSignal 1 2;
     LogSignal (LogAnalysing (u "ab"));
     LogSignal (LogCoreRoot (u "ab"));
     LogSignal (LogVariantCount 1);
     Did (FillTitle (u "ab")) Returned;
     Did ReadClasses (Text (u "5,31"));
     Did (FillCaptcha (Some (u "12345"))) Returned;
     Did ClickSearch Returned;
     Did WaitAlert no_alert;
     Did ReadResults (Text (u "1"));
     Did FindLinks (Count 1);
     Did CurrentWindow Returned;
     Did RefindLinks (Count 1);
     Did (ReadTitle 0) (Text (u "AB"));
     Did (ClickLink 0) Returned;
     Did WindowHandles (Count 1);
     Did WaitModal (Raise (TimeoutException (u "no modal")));
     Did FindNext (Flag false);
     Did QuitDriver Returned;
     FinishedSignal ]).
Proof. vm_compute. reflexivity. Qed.

(** ** Search attempts, step by step *)

Section Attempts.
Variable classes : str.


Section Alerts.
Variables (k : nat) (name variant : str) (code : option str) (found : bool).
Variables (w : World) (value err : str) (a1 a2 a3 a4 : answer).
Hypothesis running : is_running (self (absorb w)) = true.
Hypothesis ok1 : not_raise a1.
Hypothesis ok2 : not_raise a2.
Hypothesis ok3 : not_raise a3.
Hypothesis ok4 : not_raise a4.









End Alerts.

End Attempts.



(** The second way to the result box, on a run: the site rejects the
    token [12345] and the click on the captcha image times out.  No
    picture is taken and no token acquired; the result box of the
    rejected search is read, and the variant ends as clean. *)
Example click_timeout_reads_rejected_search :
  search_variant (u "5,31") 4 (u "ab") (u "ab") (Some (u "12345")) false
                 click_timeout_world =
  (Done (Some (u "12345"), false),
   {| self := receive_captcha (u "12345") new_worker;
      answers := []; operator := [] |},
   [ Did (FillTitle (u "ab")) Returned;
     Did ReadClasses (Text (u "5,31"));
     Did (FillCaptcha (Some (u "12345"))) Returned;
     Did ClickSearch Returned;
     Did WaitAlert (Text (u "کد امنیتی وارد شده اشتباه است"));
     LogSignal LogCaptchaExpired;
     Did ClickCaptchaImage (Raise (TimeoutException (u "script timeout")));
     Did ReadResults (Text (u "رکوردی یافت نشد")) ]).
Proof. vm_compute. reflexivity. Qed.

(** ** Cancellation

    Once the run is stopped it stays stopped, and each loop returns at its
    next check of [is_running] without a request or a signal. *)

Lemma stopped_scrape_returns (k : nat) (st var : str) (n : nat) (w : World) :
  is_running (self (absorb w)) = false ->
  scrape_pages (S k) st var n w = (Done n, absorb w, []).
Proof.
  intros Hstop. simpl.
  eapply bind_done with (tr1 := []); [apply read_absorb|].
  rewrite Hstop. reflexivity.
Qed.

Lemma stopped_item_returns (st var : str) (i : nat) (w : World) :
  is_running (self (absorb w)) = false ->
  scrape_item st var i w = (Done ItemReturn, absorb w, []).
Proof.
  intros Hstop. unfold scrape_item.
  eapply bind_done with (tr1 := []); [apply read_absorb|].
  rewrite Hstop. reflexivity.
Qed.

Lemma stopped_search_returns (classes : str) (k : nat) (name variant : str)
      (code : option str) (found : bool) (w : World) :
  is_running (self (absorb w)) = false ->
  search_variant classes (S k) name variant code found w =
  (Done (code, found), absorb w, []).
Proof.
  intros Hstop. simpl.
  eapply bind_done with (tr1 := []); [apply read_absorb|].
  rewrite Hstop. reflexivity.
Qed.

Lemma stopped_variants_return (classes : str) (fuel : nat) (name : str)
      (variant : str) (rest : list str) (code : option str) (found : bool)
      (w : World) :
  is_running (self (absorb w)) = false ->
  search_variants classes fuel name (variant :: rest) code found w =
  (Done (code, found), absorb w, []).
Proof.
  intros Hstop. simpl.
  eapply bind_done with (tr1 := []); [apply read_absorb|].
  rewrite Hstop. reflexivity.
Qed.

(** C2 fails on this run: the operator stops the run while the name
    [سیب] is in progress and none of its variants has been searched, and
    the worker still emits the record that reports the name as free. *)
Theorem stopped_name_reported_free :
  @run first_seen_runtime (u "5,31") 3 (u "Name.txt") stopped_world =
  (Done tt,
   {| self := stop (receive_captcha (u "12345") new_worker);
      answers := []; operator := [] |},
   [ Did SetupDriver Returned;
     Did (Get (u "https://ipm.ssaa.ir/Search-Trademark")) Returned;
     Did (ReadNames (u "Name.txt")) (Lines [u "سیب"]);
     Did DismissNotice Returned;
     Did Screenshot (Image []);
     CaptchaSignal [];
     LogSignal LogEnterCaptcha;
     StatusSignal (u "منتظر ورودی کاربر...");
     StatusSignal (u "در حال تحلیل...");
     ProgressSignal 1 1;
     LogSignal (LogAnalysing (u "سیب"));
     LogSignal (LogCoreRoot (u "سیب"));
     LogSignal (LogVariantCount 13);
     ResultSignal (summary_record (u "سیب"));
     Did QuitDriver Returned;
     FinishedSignal ]).
Proof. vm_compute. reflexivity. Qed.

(** * Further properties of the program *)

(** ** The size and the members of the variant set *)

Lemma list_of_set_length_le `{Runtime} (l : list str) :
  length (list_of_set l) <= length l.
Proof.
  apply NoDup_incl_length; [apply list_of_set_NoDup|].
  intros x Hx. apply list_of_set_In, Hx.
Qed.

Lemma list_of_set_length `{Runtime} (l : list str) :
  NoDup l -> length (list_of_set l) = length l.
Proof.
  intros Hl. apply Nat.le_antisymm; [apply list_of_set_length_le|].
  apply NoDup_incl_length; [exact Hl|].
  intros x Hx. apply list_of_set_In, Hx.
Qed.

Lemma lazy_group_chars (s g : str) :
  lazy_group s = Some g -> ~ In 41%N g /\ ~ In 10%N g.
Proof.
  revert g; induction s as [|c s IH]; intros g; simpl; [discriminate|].
  unfold char_eqb.
  destruct (N.eqb_spec c 41); [intros E; injection E as <-; simpl; tauto|].
  destruct (N.eqb_spec c 10); [discriminate|].
  destruct (lazy_group s) as [g'|]; simpl; [|discriminate].
  intros E; injection E as <-. destruct (IH g' eq_refl) as [H1 H2].
  simpl. split; intros [E|E]; auto.
Qed.

Lemma search_paren_chars (s g : str) :
  search_paren s = Some g -> ~ In 41%N g /\ ~ In 10%N g.
Proof.
  induction s as [|c s IH]; simpl; [discriminate|].
  destruct (char_eqb c 40%N); [|exact IH].
  destruct (lazy_group s) as [g'|] eqn:E; [|exact IH].
  intros E'; injection E' as <-. exact (lazy_group_chars _ E).
Qed.

Section VariantSet.
Context `{Runtime}.

Lemma confusables_added_length (core_root : str) :
  length (confusables_added core_root) <= 31.
Proof.
  unfold confusables_added.
  destruct (length core_root <? 15); [|simpl; lia].
  destruct (length (generate_permutations core_root) <? 32) eqn:E.
  - apply Nat.ltb_lt in E. lia.
  - rewrite length_firstn. lia.
Qed.

(** X1: whatever the input, [analyze_name] returns at least one and at
    most 35 variants to search: the translation, the clean name, the core
    root and the transliteration, and at most 31 confusable forms. *)
Theorem variant_set_bounded (raw_input : str) :
  1 <= length (fst (analyze_name raw_input)) <= 35.
Proof.
  split.
  - destruct (fst (analyze_name raw_input)) as [|x l] eqn:E; [|simpl; lia].
    assert (Hin : In (clean_name_of raw_input) (fst (analyze_name raw_input)))
      by (apply analyze_name_In, variants_added_In; left; right; left;
          reflexivity).
    rewrite E in Hin. destruct Hin.
  - simpl. eapply Nat.le_trans; [apply list_of_set_length_le|].
    unfold variants_added. rewrite !length_app.
    pose proof (confusables_added_length (core_root_of raw_input)).
    destruct (translation_of raw_input);
      destruct (str_eqb (core_root_of raw_input) (clean_name_of raw_input));
      simpl; lia.
Qed.

(** X2: the core root is always among the variants [analyze_name]
    returns, and so is the translation when the input has a parenthesised
    group; the translation is the text of the first such group on one
    line, so it holds neither a closing parenthesis nor a line feed. *)
Theorem translation_and_root_are_variants (raw_input : str) :
  In (core_root_of raw_input) (fst (analyze_name raw_input))
  /\ forall translation,
      translation_of raw_input = Some translation ->
      In translation (fst (analyze_name raw_input))
      /\ ~ In 41%N translation /\ ~ In 10%N translation.
Proof.
  split.
  - apply analyze_name_In, variants_added_In. left.
    destruct (str_eqb (core_root_of raw_input) (clean_name_of raw_input)) eqn:E.
    + apply str_eqb_eq in E. right. left. exact E.
    + right. right. left. split; [reflexivity|].
      intros E'. apply str_eqb_eq in E'. congruence.
  - intros t Ht. split.
    + apply analyze_name_In, variants_added_In. left. left. exact Ht.
    + exact (search_paren_chars _ Ht).
Qed.
End VariantSet.

Lemma translation_and_root_are_variants_witness :
  translation_of (u "سیب (Apple)") = Some (u "Apple")
  /\ In (u "Apple") (fst (@analyze_name first_seen_runtime (u "سیب (Apple)"))).
Proof.
  assert (E : translation_of (u "سیب (Apple)") = Some (u "Apple"))
    by reflexivity.
  split; [exact E|].
  exact (proj1 (proj2 (@translation_and_root_are_variants first_seen_runtime
                         (u "سیب (Apple)")) (u "Apple") E)).
Defined.

(** ** The confusable variants of a text *)

Lemma all_subs_single :
  Forall (Forall (fun alt : str => length alt = 1)) all_subs.
Proof. repeat constructor. Qed.

Lemma all_subs_NoDup : Forall (@NoDup str) all_subs.
Proof.
  repeat (constructor; [repeat (constructor; [cbv; intuition discriminate|]);
                        constructor|]).
  constructor.
Qed.

Lemma options_of_single (ch : char) (alt : str) :
  In alt (options_of ch) -> length alt = 1.
Proof.
  unfold options_of.
  destruct (find _ all_subs) as [group|] eqn:E.
  - apply find_some in E. destruct E as [Hg _].
    pose proof all_subs_single as Hs. rewrite Forall_forall in Hs.
    specialize (Hs group Hg). rewrite Forall_forall in Hs. apply Hs.
  - intros [<-|[]]. reflexivity.
Qed.

Lemma options_of_NoDup (ch : char) : NoDup (options_of ch).
Proof.
  unfold options_of.
  destruct (find _ all_subs) as [group|] eqn:E.
  - apply find_some in E. destruct E as [Hg _].
    pose proof all_subs_NoDup as Hs. rewrite Forall_forall in Hs.
    exact (Hs group Hg).
  - repeat constructor. intros [].
Qed.

Lemma options_of_self (ch : char) : In [ch] (options_of ch).
Proof.
  unfold options_of.
  destruct (find _ all_subs) as [group|] eqn:E.
  - apply find_some in E. destruct E as [_ Hm]. apply mem_In, Hm.
  - left. reflexivity.
Qed.

Lemma concat_flat_map_cons (A : Type) (o : list (list A))
    (rest : list (list (list A))) :
  map (@concat A) (flat_map (fun x => map (cons x) rest) o) =
  flat_map (fun alt => map (app alt) (map (@concat A) rest)) o.
Proof.
  induction o as [|alt alts IH]; simpl; [reflexivity|].
  rewrite map_app, IH, !map_map. reflexivity.
Qed.

Lemma joined_product_cons (ch : char) (text : str) :
  joined_product (ch :: text) =
  flat_map (fun alt => map (app alt) (joined_product text)) (options_of ch).
Proof. unfold joined_product. simpl. apply concat_flat_map_cons. Qed.

Lemma joined_product_In (text x : str) :
  In x (joined_product text) <->
  Forall2 (fun d ch => In [d] (options_of ch)) x text.
Proof.
  revert x; induction text as [|ch text IH]; intros x.
  - split.
    + intros [<-|[]]. constructor.
    + intros Hx. inversion Hx. left. reflexivity.
  - rewrite joined_product_cons, in_flat_map. split.
    + intros (alt & Halt & Hx). apply in_map_iff in Hx.
      destruct Hx as (y & <- & Hy).
      pose proof (options_of_single _ _ Halt) as Hlen.
      destruct alt as [|d [|? ?]]; try discriminate Hlen.
      simpl. constructor; [exact Halt | apply IH, Hy].
    + intros Hx. inversion Hx as [|d ch' y text' Hd Hy]; subst.
      exists [d]. split; [exact Hd|].
      apply in_map_iff. exists y. split; [reflexivity | apply IH, Hy].
Qed.

Lemma flat_map_length_const (A B : Type) (f : A -> list B) (n : nat)
    (o : list A) :
  (forall x, length (f x) = n) -> length (flat_map f o) = length o * n.
Proof.
  intros Hf. induction o as [|x o IH]; simpl; [reflexivity|].
  rewrite length_app, Hf, IH. reflexivity.
Qed.

Lemma joined_product_length (text : str) :
  length (joined_product text) = alternatives text.
Proof.
  induction text as [|ch text IH]; [reflexivity|].
  rewrite joined_product_cons.
  rewrite flat_map_length_const with (n := length (joined_product text)).
  - rewrite IH. reflexivity.
  - intros alt. apply length_map.
Qed.

Lemma joined_product_NoDup (text : str) : NoDup (joined_product text).
Proof.
  induction text as [|ch text IH].
  - repeat constructor. intros [].
  - rewrite joined_product_cons.
    pose proof (options_of_NoDup ch) as Hnd.
    pose proof (options_of_single ch) as Hsingle.
    induction (options_of ch) as [|alt alts IHa]; simpl; [constructor|].
    inversion Hnd as [|? ? Hnot Hnd']; subst.
    apply NoDup_app.
    + apply NoDup_map_NoDup_ForallPairs; [|exact IH].
      intros y y' _ _ E. exact (app_inv_head _ _ _ E).
    + apply IHa; [exact Hnd'|]. intros a Ha. apply Hsingle. right. exact Ha.
    + intros x Hx Hx'. apply in_map_iff in Hx. destruct Hx as (y & <- & _).
      apply in_flat_map in Hx'. destruct Hx' as (alt' & Halt' & Hx').
      apply in_map_iff in Hx'. destruct Hx' as (y' & E & _).
      assert (H1 : length alt = 1) by (apply Hsingle; left; reflexivity).
      assert (H2 : length alt' = 1) by (apply Hsingle; right; exact Halt').
      destruct alt as [|d [|? ?]]; try discriminate H1.
      destruct alt' as [|d' [|? ?]]; try discriminate H2.
      simpl in E. injection E as -> _. contradiction.
Qed.

Section Confusables.
Context `{Runtime}.

(** X3: the confusable forms [generate_permutations] returns for a text
    are exactly the strings obtained by replacing each character by a
    member of its substitution group (or by itself when it is in no
    group); the text itself is one of them and all have its length. *)
Theorem permutations_are_confusables (text : str) :
  (forall x, In x (generate_permutations text) <->
             Forall2 (fun d ch => In [d] (options_of ch)) x text)
  /\ In text (generate_permutations text)
  /\ Forall (fun x => length x = length text) (generate_permutations text).
Proof.
  assert (Hin : forall x, In x (generate_permutations text) <->
                Forall2 (fun d ch => In [d] (options_of ch)) x text).
  { intros x. unfold generate_permutations.
    rewrite list_of_set_In. apply joined_product_In. }
  split; [exact Hin|]. split.
  - apply Hin. clear Hin. induction text as [|ch text IH]; constructor.
    + apply options_of_self.
    + exact IH.
  - apply Forall_forall. intros x Hx. apply Hin in Hx.
    exact (Forall2_length Hx).
Qed.

(** X4: [generate_permutations] returns as many forms as the product of
    the sizes of the characters' substitution groups: distinct choices
    give distinct strings, so the set loses nothing; there is always at
    least one. *)
Theorem permutations_count (text : str) :
  length (generate_permutations text) = alternatives text
  /\ 1 <= alternatives text.
Proof.
  split.
  - unfold generate_permutations.
    rewrite list_of_set_length; [apply joined_product_length|].
    apply joined_product_NoDup.
  - induction text as [|ch text IH]; simpl; [lia|].
    pose proof (options_of_self ch) as Hs.
    destruct (options_of ch); [destruct Hs|]. simpl. nia.
Qed.
End Confusables.

(** ** Words, stop words and the core root *)

Lemma split_from_word (w tok rest : str) :
  spaceless w = true ->
  split_from tok (w ++ rest) = split_from (rev w ++ tok) rest.
Proof.
  revert tok; induction w as [|c w IH]; intros tok Hw; [reflexivity|].
  simpl in Hw. apply andb_true_iff in Hw. destruct Hw as [Hc Hw].
  apply negb_true_iff in Hc. simpl. rewrite Hc, IH by exact Hw. rewrite <- app_assoc.
  reflexivity.
Qed.

Lemma split_word (w : str) :
  w <> [] -> spaceless w = true -> split w = [w].
Proof.
  intros Hne Hw. unfold split.
  rewrite <- (app_nil_r w) at 1.
  rewrite split_from_word by exact Hw. rewrite app_nil_r.
  simpl. destruct (rev w) eqn:E.
  - apply (f_equal (@rev char)) in E. rewrite rev_involutive in E.
    contradiction.
  - rewrite <- E, rev_involutive. reflexivity.
Qed.

(** [split] undoes [join] with a space on words. *)
Lemma split_join (ws : list str) :
  Forall (fun w => w <> [] /\ spaceless w = true) ws ->
  split (join (u " ") ws) = ws.
Proof.
  induction 1 as [|w ws [Hne Hw] Hws IH]; [reflexivity|].
  destruct ws as [|w2 ws]; [exact (split_word Hne Hw)|].
  change (join (u " ") (w :: w2 :: ws))
    with (w ++ 32%N :: join (u " ") (w2 :: ws)).
  unfold split in *. rewrite split_from_word by exact Hw. rewrite app_nil_r.
  change (split_from (rev w) (32%N :: join (u " ") (w2 :: ws)))
    with (match rev w with
          | [] => split_from [] (join (u " ") (w2 :: ws))
          | _ => rev (rev w) :: split_from [] (join (u " ") (w2 :: ws))
          end).
  rewrite IH. destruct (rev w) eqn:E.
  - apply (f_equal (@rev char)) in E. rewrite rev_involutive in E.
    contradiction.
  - rewrite <- E, rev_involutive. reflexivity.
Qed.

Lemma spaceless_rev (w : str) : spaceless (rev w) = spaceless w.
Proof.
  unfold spaceless. induction w as [|c w IH]; [reflexivity|].
  simpl. rewrite forallb_app, IH. simpl. rewrite andb_true_r. apply andb_comm.
Qed.

Lemma split_from_words (s tok : str) :
  spaceless tok = true ->
  Forall (fun w => w <> [] /\ spaceless w = true) (split_from tok s).
Proof.
  assert (Htok : forall t : str, t <> [] -> spaceless t = true ->
                 rev t <> [] /\ spaceless (rev t) = true).
  { intros t Hne Ht. rewrite spaceless_rev. split; [|exact Ht].
    intros E. apply (f_equal (@rev char)) in E. rewrite rev_involutive in E.
    contradiction. }
  revert tok; induction s as [|c s IH]; intros tok Ht; simpl.
  - destruct tok; constructor; [|constructor].
    apply Htok; [discriminate | exact Ht].
  - destruct (isspace c) eqn:Ec.
    + destruct tok; [apply IH; reflexivity|]. constructor.
      * apply Htok; [discriminate | exact Ht].
      * apply IH. reflexivity.
    + apply IH. simpl. rewrite Ec. exact Ht.
Qed.

Lemma split_words (s : str) :
  Forall (fun w => w <> [] /\ spaceless w = true) (split s).
Proof. apply split_from_words. reflexivity. Qed.

Lemma filter_words (f : str -> bool) (ws : list str) :
  Forall (fun w => w <> [] /\ spaceless w = true) ws ->
  Forall (fun w => w <> [] /\ spaceless w = true) (filter f ws).
Proof.
  rewrite !Forall_forall. intros Hws w Hw. apply filter_In in Hw.
  apply Hws, Hw.
Qed.

Lemma filter_idem (A : Type) (f : A -> bool) (l : list A) :
  filter f (filter f l) = filter f l.
Proof.
  induction l as [|x l IH]; simpl; [reflexivity|].
  destruct (f x) eqn:E; simpl; [rewrite E, IH|]; auto.
Qed.

(** The words of the core root. *)
Lemma split_extract_core_root (text : str) :
  split (extract_core_root text) =
  match filter (fun w => negb (mem w stop_words)) (split text) with
  | [] => split text
  | core_words => core_words
  end.
Proof.
  unfold extract_core_root.
  pose proof (filter_words (fun w => negb (mem w stop_words))
                           (split_words text)) as Hws.
  destruct (filter _ (split text)) as [|w ws]; [reflexivity|].
  exact (split_join Hws).
Qed.

(** X5: the words of the core root are the words of the text that are
    not stop words, in their order; when every word is a stop word (or
    there is none) they are the words of the text. *)
Theorem core_root_words (text : str) :
  (filter (fun w => negb (mem w stop_words)) (split text) <> [] ->
   split (extract_core_root text) =
   filter (fun w => negb (mem w stop_words)) (split text))
  /\ (filter (fun w => negb (mem w stop_words)) (split text) = [] ->
      split (extract_core_root text) = split text).
Proof.
  rewrite split_extract_core_root.
  destruct (filter _ (split text)); split; congruence.
Qed.

Lemma core_root_words_witness :
  split (extract_core_root (u "شرکت تک نان جنوب")) = [u "نان"].
Proof.
  rewrite (proj1 (core_root_words (u "شرکت تک نان جنوب"))).
  - reflexivity.
  - vm_compute. discriminate.
Defined.

(** X6: extracting the core root of a core root changes nothing. *)
Theorem extract_core_root_idempotent (text : str) :
  extract_core_root (extract_core_root text) = extract_core_root text.
Proof.
  unfold extract_core_root at 1. rewrite split_extract_core_root.
  unfold extract_core_root.
  destruct (filter _ (split text)) as [|w ws] eqn:E.
  - rewrite E. reflexivity.
  - rewrite <- E, filter_idem, E. reflexivity.
Qed.

(** X7: a stop word that holds whitespace never equals a word of a text,
    since [split] cuts the text at whitespace; the entry of two words in
    the list of stop words therefore removes nothing. *)
Theorem stop_word_with_space_never_matches (w text : str) :
  spaceless w = false -> mem w (split text) = false.
Proof.
  intros Hw. destruct (mem w (split text)) eqn:E; [|reflexivity].
  apply mem_In in E. pose proof (split_words text) as Hws.
  rewrite Forall_forall in Hws. destruct (Hws w E) as [_ Hs]. congruence.
Qed.

Lemma stop_word_with_space_never_matches_witness :
  mem (u "بین الملل") stop_words = true
  /\ mem (u "بین الملل") (split (u "بازرگانی بین الملل")) = false.
Proof.
  split; [reflexivity|].
  apply stop_word_with_space_never_matches. reflexivity.
Defined.

(** ** The transliteration *)

Lemma dict_get_default (d : list (str * str)) (k dflt : str) :
  mem k (map fst d) = false -> dict_get d k dflt = dflt.
Proof.
  induction d as [|[k' v] d IH]; simpl; [reflexivity|].
  destruct (str_eqb k k'); [discriminate | exact IH].
Qed.

Lemma dict_get_In (d : list (str * str)) (k dflt : str) :
  mem k (map fst d) = true -> In (dict_get d k dflt) (map snd d).
Proof.
  induction d as [|[k' v] d IH]; simpl; [discriminate|].
  destruct (str_eqb k k'); [left; reflexivity | right; apply IH; assumption].
Qed.

(** The entries of [f_to_e_map] are one or two ASCII characters which the
    map leaves as they are. *)
Lemma f_to_e_values :
  Forall (fun v : str =>
            1 <= length v <= 2
            /\ Forall (fun c => (c < 128)%N) v
            /\ fingilish_of v = v)
         (map snd f_to_e_map).
Proof.
  repeat constructor; cbv; try lia; try reflexivity; discriminate.
Qed.

Lemma fingilish_of_char (c : char) :
  1 <= length (dict_get f_to_e_map [c] [c]) <= 2
  /\ fingilish_of (dict_get f_to_e_map [c] [c]) = dict_get f_to_e_map [c] [c]
  /\ (mem [c] (map fst f_to_e_map) = true ->
      Forall (fun c => (c < 128)%N) (dict_get f_to_e_map [c] [c]))
  /\ (mem [c] (map fst f_to_e_map) = false ->
      dict_get f_to_e_map [c] [c] = [c]).
Proof.
  destruct (mem [c] (map fst f_to_e_map)) eqn:E.
  - pose proof f_to_e_values as Hv. rewrite Forall_forall in Hv.
    destruct (Hv _ (@dict_get_In f_to_e_map [c] [c] E)) as (Hl & Ha & Hf).
    repeat split; try tauto; try discriminate; lia.
  - rewrite (@dict_get_default f_to_e_map [c] [c] E).
    repeat split; try (simpl; lia); try discriminate.
    change (fingilish_of [c]) with (dict_get f_to_e_map [c] [c] ++ []).
    rewrite (@dict_get_default f_to_e_map [c] [c] E). reflexivity.
Qed.

Lemma fingilish_of_app (a b : str) :
  fingilish_of (a ++ b) = fingilish_of a ++ fingilish_of b.
Proof. apply flat_map_app. Qed.

Lemma fingilish_of_cons (c : char) (text : str) :
  fingilish_of (c :: text) = dict_get f_to_e_map [c] [c] ++ fingilish_of text.
Proof. reflexivity. Qed.

(** X8: the transliteration of a text is at least as long as the text and
    at most twice as long, and transliterating it again changes
    nothing. *)
Theorem fingilish_length_and_idempotence (text : str) :
  length text <= length (fingilish_of text) <= 2 * length text
  /\ fingilish_of (fingilish_of text) = fingilish_of text.
Proof.
  induction text as [|c text [IHl IHf]]; [simpl; split; [lia | reflexivity]|].
  rewrite fingilish_of_cons, fingilish_of_app, length_app, IHf.
  destruct (fingilish_of_char c) as (Hl & Hf & _).
  rewrite Hf. cbn [length]. split; [lia | reflexivity].
Qed.

Lemma ascii_key (c : char) :
  (c < 128)%N -> mem [c] (map fst f_to_e_map) = true -> c = 32%N.
Proof.
  intros Hc Hm. apply mem_In in Hm. cbv in Hm.
  repeat (destruct Hm as [Hm|Hm];
          [injection Hm as <-; first [reflexivity | cbv in Hc; discriminate]|]).
  destruct Hm.
Qed.

(** X9: a text of ASCII characters is its own transliteration, and the
    transliteration of a text whose characters are all in the map (the 33
    Persian letters and the space) is ASCII. *)
Theorem fingilish_of_ascii (text : str) :
  (Forall (fun c => (c < 128)%N) text -> fingilish_of text = text)
  /\ (Forall (fun c => mem [c] (map fst f_to_e_map) = true) text ->
      Forall (fun c => (c < 128)%N) (fingilish_of text)).
Proof.
  split.
  - induction 1 as [|c text Hc _ IH]; [reflexivity|].
    rewrite fingilish_of_cons, IH.
    destruct (fingilish_of_char c) as (_ & _ & _ & Hd).
    destruct (mem [c] (map fst f_to_e_map)) eqn:E.
    + rewrite (ascii_key Hc E). reflexivity.
    + rewrite (Hd E). reflexivity.
  - induction 1 as [|c text Hc _ IH]; [constructor|].
    rewrite fingilish_of_cons. apply Forall_app. split; [|exact IH].
    destruct (fingilish_of_char c) as (_ & _ & Ha & _). exact (Ha Hc).
Qed.

Lemma fingilish_of_ascii_witness :
  fingilish_of (u "Tak Nan") = u "Tak Nan".
Proof.
  apply (proj1 (fingilish_of_ascii (u "Tak Nan"))).
  repeat constructor.
Defined.

(** ** The clean name *)

Lemma lstrip_head (s : str) :
  match lstrip s with [] => True | c :: _ => isspace c = false end.
Proof.
  induction s as [|c s IH]; simpl; [exact I|].
  destruct (isspace c) eqn:E; [exact IH | exact E].
Qed.

Lemma lstrip_fixed (c : char) (s : str) :
  isspace c = false -> lstrip (c :: s) = c :: s.
Proof. intros E. simpl. rewrite E. reflexivity. Qed.

Lemma lstrip_idem (s : str) : lstrip (lstrip s) = lstrip s.
Proof.
  pose proof (lstrip_head s) as Hh.
  destruct (lstrip s) as [|c r]; [reflexivity | exact (@lstrip_fixed c r Hh)].
Qed.

Lemma lstrip_snoc (s : str) (c : char) :
  isspace c = false -> exists p, lstrip (s ++ [c]) = p ++ [c].
Proof.
  intros E. induction s as [|d s IH]; simpl.
  - rewrite E. exists []. reflexivity.
  - destruct (isspace d); [exact IH|]. exists (d :: s). reflexivity.
Qed.

Lemma lstrip_Forall (P : char -> Prop) (s : str) :
  Forall P s -> Forall P (lstrip s).
Proof.
  induction 1 as [|c s Hc Hs IH]; simpl; [constructor|].
  destruct (isspace c); [exact IH | constructor; assumption].
Qed.

Lemma rstrip_Forall (P : char -> Prop) (s : str) :
  Forall P s -> Forall P (rstrip s).
Proof.
  intros Hs. unfold rstrip. apply Forall_rev, lstrip_Forall, Forall_rev, Hs.
Qed.

Lemma rstrip_idem (s : str) : rstrip (rstrip s) = rstrip s.
Proof. unfold rstrip. rewrite rev_involutive, lstrip_idem. reflexivity. Qed.

(** What [strip] returns starts and ends with a character that is not
    whitespace, unless it is empty. *)
Lemma strip_ends (s : str) :
  match strip s with [] => True | c :: _ => isspace c = false end
  /\ match rev (strip s) with [] => True | c :: _ => isspace c = false end.
Proof.
  unfold strip. split.
  - pose proof (lstrip_head s) as Hh.
    destruct (lstrip s) as [|c r]; [exact I|].
    unfold rstrip. simpl rev.
    destruct (@lstrip_snoc (rev r) c Hh) as [p ->].
    rewrite rev_app_distr. exact Hh.
  - unfold rstrip. rewrite rev_involutive. apply lstrip_head.
Qed.

Lemma strip_idem (s : str) : strip (strip s) = strip s.
Proof.
  destruct (strip_ends s) as [Hh _].
  unfold strip at 1. destruct (strip s) as [|c r] eqn:E; [reflexivity|].
  rewrite (@lstrip_fixed c r Hh), <- E. unfold strip. apply rstrip_idem.
Qed.

Section CleanName.
Context `{Runtime}.

(** X10: the clean name holds only word characters and whitespace, begins
    and ends with a word character unless it is empty, and stripping it
    again changes nothing. *)
Theorem clean_name_shape (raw_input : str) :
  Forall (fun c => is_word c || isspace c = true) (clean_name_of raw_input)
  /\ match clean_name_of raw_input with
     | [] => True
     | c :: _ => is_word c = true
     end
  /\ match rev (clean_name_of raw_input) with
     | [] => True
     | c :: _ => is_word c = true
     end
  /\ strip (clean_name_of raw_input) = clean_name_of raw_input.
Proof.
  assert (Hall : Forall (fun c => is_word c || isspace c = true)
                        (clean_name_of raw_input)).
  { unfold clean_name_of, strip. apply rstrip_Forall, lstrip_Forall.
    unfold sub_nonword. apply Forall_forall. intros c Hc.
    apply filter_In in Hc. apply Hc. }
  split; [exact Hall|].
  destruct (strip_ends (sub_nonword (persian_part_of raw_input))) as [Hh Ht].
  fold (clean_name_of raw_input) in Hh, Ht.
  assert (Hrev : Forall (fun c => is_word c || isspace c = true)
                        (rev (clean_name_of raw_input)))
    by (apply Forall_rev, Hall).
  repeat split.
  - destruct (clean_name_of raw_input) as [|c r]; [exact I|].
    inversion Hall as [|? ? Hc _]; subst. rewrite Hh, orb_false_r in Hc.
    exact Hc.
  - destruct (rev (clean_name_of raw_input)) as [|c r]; [exact I|].
    inversion Hrev as [|? ? Hc _]; subst. rewrite Ht, orb_false_r in Hc.
    exact Hc.
  - apply strip_idem.
Qed.
End CleanName.

(** ** Pausing and the entry of a captcha *)

Lemma pause_check_returns (fuel : nat) (w w' : World) (o : outcome unit)
      (tr : list event) :
  pause_check fuel w = (o, w', tr) ->
  tr = [] /\ answers w' = answers w
  /\ match o with
     | Done _ => is_paused (self w') = false
     | Raised _ => False
     | Cut => True
     end.
Proof.
  revert w; induction fuel as [|k IH]; intros w; simpl.
  - intros E; injection E as <- <- <-. auto.
  - unfold bind. rewrite read_absorb.
    destruct (is_paused (self (absorb w))) eqn:Ep.
    + destruct (pause_check k (absorb w)) as [[o1 w1] tr1] eqn:E1.
      intros E; injection E as <- <- <-.
      destruct (IH _ E1) as (-> & Ha & Ho).
      rewrite Ha, answers_absorb. auto.
    + intros E; injection E as <- <- <-.
      rewrite answers_absorb. auto.
Qed.

(** X11: [pause_check] returns at once when it reads [is_paused] as
    false, and returns only then; it makes no request and emits no
    signal, and it never raises. *)
Theorem pause_check_returns_unpaused (fuel : nat) (w : World) :
  (is_paused (self (absorb w)) = false ->
   pause_check (S fuel) w = (Done tt, absorb w, []))
  /\ (forall w' tr,
         pause_check fuel w = (Done tt, w', tr) ->
         tr = [] /\ answers w' = answers w /\ is_paused (self w') = false)
  /\ (forall e w' tr, pause_check fuel w <> (Raised e, w', tr)).
Proof.
  split; [|split].
  - intros Hp. simpl. unfold bind. rewrite read_absorb, Hp. reflexivity.
  - intros w' tr E. exact (pause_check_returns _ _ E).
  - intros e w' tr E. exact (proj2 (proj2 (pause_check_returns _ _ E))).
Qed.

Lemma pause_check_returns_unpaused_witness :
  is_paused
    (self (snd (fst (pause_check 3 (paused_world [[]; [CallTogglePause]])))))
  = false.
Proof.
  assert (E : pause_check 3 (paused_world [[]; [CallTogglePause]])
              = (Done tt,
                 snd (fst (pause_check 3 (paused_world [[]; [CallTogglePause]]))),
                 snd (pause_check 3 (paused_world [[]; [CallTogglePause]]))))
    by reflexivity.
  exact (proj2 (proj2 (proj1 (proj2 (@pause_check_returns_unpaused
                                       3 (paused_world [[]; [CallTogglePause]])))
                             _ _ E))).
Defined.

Lemma operate_keeps_paused (calls : list operator_call) (self : Worker) :
  Forall (fun c => c <> CallTogglePause) calls ->
  is_paused (fold_left operate calls self) = is_paused self.
Proof.
  intros Hc; revert self; induction Hc as [|c calls Hc _ IH]; intros self;
    simpl; [reflexivity|].
  rewrite IH. destruct c; try reflexivity. contradiction.
Qed.

(** X12: [pause_check] does not look at [is_running]: while the worker is
    paused and the operator does not resume it, whatever else the operator
    calls ([stop] included), the wait does not end. *)
Theorem paused_worker_ignores_stop (fuel : nat) (w : World) :
  is_paused (self w) = true ->
  Forall (Forall (fun c => c <> CallTogglePause)) (operator w) ->
  fst (fst (pause_check fuel w)) = Cut
  /\ snd (pause_check fuel w) = [].
Proof.
  revert w; induction fuel as [|k IH]; intros w Hp Hops; simpl; [auto|].
  unfold bind. rewrite read_absorb.
  assert (Hp' : is_paused (self (absorb w)) = true
                /\ Forall (Forall (fun c => c <> CallTogglePause))
                          (operator (absorb w))).
  { unfold absorb. destruct (operator w) as [|calls ops] eqn:Eo.
    - rewrite Eo. auto.
    - inversion Hops as [|? ? Hc Hrest]; subst. simpl.
      rewrite (operate_keeps_paused _ Hc). auto. }
  destruct Hp' as [Hp' Hops']. rewrite Hp'.
  destruct (IH _ Hp' Hops') as [Ho Ht].
  destruct (pause_check k (absorb w)) as [[o1 w1] tr1]. simpl in *.
  subst. auto.
Qed.

Lemma paused_worker_ignores_stop_witness :
  fst (fst (pause_check 5 (paused_world [[CallStop]; [CallStop]]))) = Cut.
Proof.
  refine (proj1 (@paused_worker_ignores_stop
                   5 (paused_world [[CallStop]; [CallStop]]) eq_refl _)).
  repeat constructor; discriminate.
Defined.

Section CaptchaEntry.
Variable P : str -> Prop.

Lemma operate_sends (calls : list operator_call) (self : Worker) :
  Forall (sends P) calls ->
  (waiting_for_captcha self = true \/ holds_code P self ->
   waiting_for_captcha (fold_left operate calls self) = true
   \/ holds_code P (fold_left operate calls self))
  /\ (holds_code P self -> holds_code P (fold_left operate calls self)).
Proof.
  intros Hc; revert self; induction Hc as [|c calls Hc _ IH]; intros self;
    simpl; [auto|].
  destruct (IH (operate self c)) as [IH1 IH2].
  split; intros Hs.
  - apply IH1. destruct c; simpl; auto. right. exists code. auto.
  - apply IH2. destruct c; simpl; auto. exists code. auto.
Qed.

Lemma absorb_sends (w : World) :
  Forall (Forall (sends P)) (operator w) ->
  Forall (Forall (sends P)) (operator (absorb w))
  /\ (waiting_for_captcha (self w) = true \/ holds_code P (self w) ->
      waiting_for_captcha (self (absorb w)) = true
      \/ holds_code P (self (absorb w)))
  /\ (holds_code P (self w) -> holds_code P (self (absorb w))).
Proof.
  intros Hops. unfold absorb. destruct (operator w) as [|calls ops] eqn:Eo.
  - rewrite Eo. auto.
  - inversion Hops as [|? ? Hc Hrest]; subst. simpl.
    destruct (operate_sends (self w) Hc). auto.
Qed.

Lemma wait_for_captcha_returns (fuel : nat) (w w' : World)
      (o : outcome unit) (tr : list event) :
  wait_for_captcha fuel w = (o, w', tr) ->
  Forall (Forall (sends P)) (operator w) ->
  waiting_for_captcha (self w) = true \/ holds_code P (self w) ->
  tr = [] /\ answers w' = answers w
  /\ Forall (Forall (sends P)) (operator w')
  /\ match o with
     | Done _ => is_running (self w') = false \/ holds_code P (self w')
     | Raised _ => False
     | Cut => True
     end.
Proof.
  revert w; induction fuel as [|k IH]; intros w; simpl.
  - intros E; injection E as <- <- <-. auto.
  - intros E Hops Hinv. unfold bind in E. rewrite read_absorb in E.
    destruct (absorb_sends w Hops) as (Hops1 & Hinv1 & _).
    specialize (Hinv1 Hinv).
    destruct (waiting_for_captcha (self (absorb w))) eqn:Ew.
    + rewrite read_absorb in E.
      destruct (absorb_sends (absorb w) Hops1) as (Hops2 & Hinv2 & _).
      assert (Hinv2' := Hinv2 (or_introl Ew)).
      destruct (is_running (self (absorb (absorb w)))) eqn:Er.
      * destruct (wait_for_captcha k (absorb (absorb w)))
          as [[o1 w1] tr1] eqn:E1.
        injection E as <- <- <-.
        destruct (IH _ E1 Hops2 Hinv2') as (-> & Ha & Hops' & Ho).
        rewrite Ha, !answers_absorb. auto.
      * injection E as <- <- <-. rewrite !answers_absorb. auto.
    + injection E as <- <- <-. rewrite answers_absorb.
      repeat split; auto. right.
      destruct Hinv1 as [Hw|Hc]; [discriminate | exact Hc].
Qed.

(** X13: [get_captcha_image] never raises.  When the picture of the
    captcha cannot be taken it logs the error and returns the token
    [00000]; otherwise it shows the picture, waits, and returns the code
    stored in the worker, which on a worker that is still running is a
    code the operator has sent. *)
Theorem captcha_token_source (fuel : nat) (w w' : World)
        (o : outcome (option str)) (tr : list event) :
  get_captcha_image fuel w = (o, w', tr) ->
  Forall (Forall (sends P)) (operator w) ->
  match o with
  | Raised _ => False
  | Cut => True
  | Done r =>
    (exists e,
        r = Some (u "00000")
        /\ tr = [ Did Screenshot (Raise e);
                  LogSignal (LogCaptchaImageError (exn_str e)) ])
    \/ (exists png,
           tr = [ Did Screenshot (Image png); CaptchaSignal png;
                  LogSignal LogEnterCaptcha;
                  StatusSignal (u "منتظر ورودی کاربر...");
                  StatusSignal (u "در حال تحلیل...") ]
           /\ r = captcha_code (self w')
           /\ (is_running (self w') = true -> holds_code P (self w')))
  end.
Proof.
  intros E Hops.
  unfold get_captcha_image, try_except, call_image, bind, call, emit in E.
  destruct (answers w) as [|a rest] eqn:Ea.
  { injection E as <- <- <-. exact I. }
  destruct a; try (injection E as <- <- <-; exact I).
  { injection E as <- <- <-. left. exists e. auto. }
  simpl in E. unfold write_waiting, sync, bind in E. simpl in E.
  match type of E with
  | context [wait_for_captcha fuel ?w0] =>
    destruct (wait_for_captcha fuel w0) as [[o1 w1] tr1] eqn:E1;
      assert (Hops0 : Forall (Forall (sends P)) (operator w0)
                      /\ (waiting_for_captcha (self w0) = true
                          \/ holds_code P (self w0)))
  end.
  { split; [|left; reflexivity].
    generalize (proj1 (absorb_sends w Hops)).
    unfold absorb. simpl. destruct (operator w); simpl; auto. }
  destruct Hops0 as [Hops0 Hinv0].
  destruct (wait_for_captcha_returns _ _ E1 Hops0 Hinv0)
    as (-> & Ha & Hops1 & Ho).
  destruct o1 as [[]|e|]; [|contradiction|].
  - injection E as <- <- <-.
    right. exists png. repeat split.
    intros Hrun. destruct Ho as [Hs|Hc].
    + rewrite (absorb_keeps_stopped _ Hs) in Hrun. discriminate.
    + exact (proj2 (proj2 (absorb_sends w1 Hops1)) Hc).
  - injection E as <- <- <-. exact I.
Qed.
End CaptchaEntry.

Lemma captcha_token_source_witness :
  holds_code (fun code => nonempty code = true)
             (self (snd (fst (get_captcha_image 3 entry_world)))).
Proof.
  assert (E : get_captcha_image 3 entry_world
              = (Done (Some (u "12345")),
                 snd (fst (get_captcha_image 3 entry_world)),
                 snd (get_captcha_image 3 entry_world)))
    by reflexivity.
  assert (Hops : Forall (Forall (sends (fun code => nonempty code = true)))
                        (operator entry_world))
    by (repeat constructor).
  destruct (@captcha_token_source (fun code => nonempty code = true)
              3 entry_world _ _ _ E Hops)
    as [(e & _ & Htr) | (png & _ & _ & Hc)].
  - discriminate Htr.
  - apply Hc. reflexivity.
Defined.

(** ** The record of a detail view *)

(** X14: when the world answers its readings, [extract_data] ends
    normally and emits exactly one record, as its last event: the
    conflict record with the three fields stripped and the goods cut to
    100 characters when all three could be read, and the error record as
    soon as one reading fails. *)
Theorem extract_data_one_record (st var title : str) (is_modal : bool)
        (w : World) :
  3 <= length (answers w) ->
  forallb text_or_raise (firstn 3 (answers w)) = true ->
  exists w' tr r,
    extract_data st var title is_modal w = (Done tt, w', tr ++ [ResultSignal r])
    /\ existsb is_result tr = false
    /\ length (goods r) <= 100
    /\ ((exists reg own gds,
            tr = [ Did (ReadField is_modal (u "شماره ثبت")) (Text reg);
                   Did (ReadField is_modal (u "نام مالک")) (Text own);
                   Did (ReadField is_modal (u "کالاها")) (Text gds) ]
            /\ r = conflict_record st var title (strip reg) (strip own)
                                   (firstn 100 (strip gds)))
        \/ (r = error_record st var title
            /\ exists lbl e, In (Did (ReadField is_modal lbl) (Raise e)) tr)).
Proof.
  intros Hlen Hkind.
  destruct w as [s [|a1 [|a2 [|a3 rest]]] ops]; simpl in Hlen; try lia.
  unfold extract_data, gv, try_except, call_text, bind, call, emit, ret.
  cbn [answers self operator].
  destruct a1; try discriminate Hkind.
  { eexists _, [Did (ReadField is_modal (u "شماره ثبت")) (Raise e)], _.
    split; [reflexivity|].
    repeat split; [simpl; lia|]. right. split; [reflexivity|].
    do 2 eexists. simpl. eauto. }
  destruct a2; try discriminate Hkind.
  { eexists _, [Did (ReadField is_modal (u "شماره ثبت")) (Text s0);
                Did (ReadField is_modal (u "نام مالک")) (Raise e)], _.
    split; [reflexivity|].
    repeat split; [simpl; lia|]. right. split; [reflexivity|].
    do 2 eexists. simpl. eauto. }
  destruct a3; try discriminate Hkind.
  { eexists _, [Did (ReadField is_modal (u "شماره ثبت")) (Text s0);
                Did (ReadField is_modal (u "نام مالک")) (Text s1);
                Did (ReadField is_modal (u "کالاها")) (Raise e)], _.
    split; [reflexivity|].
    repeat split; [simpl; lia|]. right. split; [reflexivity|].
    do 2 eexists. simpl. eauto. }
  eexists _, [Did (ReadField is_modal (u "شماره ثبت")) (Text s0);
              Did (ReadField is_modal (u "نام مالک")) (Text s1);
              Did (ReadField is_modal (u "کالاها")) (Text s2)], _.
  split; [reflexivity|].
  repeat split.
  - cbn [goods conflict_record]. rewrite length_firstn. lia.
  - left. do 3 eexists. split; reflexivity.
Qed.

Lemma extract_data_one_record_witness :
  extract_data (u "ab") (u "ab") (u "AB") false detail_world =
  (Done tt,
   {| self := new_worker; answers := []; operator := [] |},
   [ Did (ReadField false (u "شماره ثبت")) (Text (u " 12345 "));
     Did (ReadField false (u "نام مالک")) (Text (u "Owner"));
     Did (ReadField false (u "کالاها")) (Text (u "Goods "));
     ResultSignal (conflict_record (u "ab") (u "ab") (u "AB") (u "12345")
                                   (u "Owner") (u "Goods")) ]).
Proof.
  destruct (@extract_data_one_record (u "ab") (u "ab") (u "AB") false
              detail_world) as (w' & tr & r & E & _);
    [simpl; lia | reflexivity |].
  eapply run_eq; [exact E | |].
  - assert (E' : snd (fst (extract_data (u "ab") (u "ab") (u "AB") false
                                        detail_world))
                 = {| self := new_worker; answers := []; operator := [] |})
      by reflexivity.
    rewrite E in E'. exact E'.
  - assert (E' : snd (extract_data (u "ab") (u "ab") (u "AB") false
                                   detail_world)
                 = [ Did (ReadField false (u "شماره ثبت"))
                         (Text (u " 12345 "));
                     Did (ReadField false (u "نام مالک")) (Text (u "Owner"));
                     Did (ReadField false (u "کالاها")) (Text (u "Goods "));
                     ResultSignal
                       (conflict_record (u "ab") (u "ab") (u "AB")
                                        (u "12345") (u "Owner") (u "Goods")) ])
      by reflexivity.
    rewrite E in E'. exact E'.
Defined.

(** ** What a scrape counts *)

Lemma links_counted_app (tr1 tr2 : list event) :
  links_counted (tr1 ++ tr2) = links_counted tr1 + links_counted tr2.
Proof. unfold links_counted. rewrite map_app, list_sum_app. reflexivity. Qed.

Lemma records_emitted_app (tr1 tr2 : list event) :
  records_emitted (tr1 ++ tr2) = records_emitted tr1 + records_emitted tr2.
Proof. unfold records_emitted. rewrite filter_app, length_app. reflexivity. Qed.

Ltac counts :=
  unfold visits in *;
  repeat match goal with
         | H : _ /\ _ |- _ => destruct H
         | H : (_ =? 0) = true |- _ => apply Nat.eqb_eq in H; subst
         end;
  rewrite ?links_counted_app, ?records_emitted_app;
  repeat match goal with
         | H : not_raise ?a |- _ => destruct a; try contradiction; clear H
         end;
  unfold links_counted, records_emitted in *; simpl in *;
  try lia.

Lemma extract_data_counts (st var title : str) (is_modal : bool) :
  spec (extract_data st var title is_modal)
       (fun _ tr => visits 1 tr) (fun _ _ => False).
Proof. unfold extract_data, gv. wp. all: counts. Qed.

Lemma scrape_item_counts (st var : str) (i : nat) :
  spec (scrape_item st var i) (fun _ tr => visits 1 tr) (fun _ _ => False).
Proof.
  unfold scrape_item. wp. all: try solve [counts].
  all: wp_use extract_data_counts; wp; counts.
Qed.

Lemma scrape_items_counts (st var : str) (indices : list nat) :
  spec (scrape_items st var indices)
       (fun _ tr => visits (length indices) tr) (fun _ _ => False).
Proof.
  induction indices as [|i rest IH]; simpl; wp; [counts|].
  wp_use scrape_item_counts. wp; try solve [counts].
  wp_use IH. counts.
Qed.

Lemma scrape_pages_counts (fuel : nat) (st var : str) (n0 : nat) :
  spec (scrape_pages fuel st var n0)
       (fun n tr => n = n0 + links_counted tr
                    /\ records_emitted tr <= links_counted tr)
       (fun _ tr => records_emitted tr <= links_counted tr).
Proof.
  revert n0; induction fuel as [|k IH]; intros n0; simpl; wp.
  all: try solve [counts].
  wp_use scrape_items_counts. rewrite length_seq in *. wp.
  all: try solve [counts].
  all: eapply spec_conseq;
    [apply IH | cbv beta; intros ? ? ? | cbv beta; intros ? ? ?].
  all: counts.
Qed.

(** X15: what [scrape_all_pages] returns is the number of result links
    listed at the top of the pages it read, whether or not their detail
    views could be opened; the number of records it emits is never
    larger. *)
Theorem scrape_counts_links (fuel : nat) (search_term variant : str)
        (w : World) :
  match scrape_all_pages fuel search_term variant w with
  | (Done n, _, tr) => n = links_counted tr /\ records_emitted tr <= n
  | (Raised _, _, tr) => records_emitted tr <= links_counted tr
  | (Cut, _, _) => True
  end.
Proof.
  pose proof (scrape_pages_counts fuel search_term variant 0 w) as Hs.
  unfold scrape_all_pages.
  destruct (scrape_pages fuel search_term variant 0 w) as [[[n|e|] w'] tr];
    auto.
  destruct Hs as [-> Hs]. auto.
Qed.

(** ** The events of the search of a name *)

Lemma worker_record_conflict (st var title reg own gds : str) :
  worker_record st var (conflict_record st var title reg own (firstn 100 gds)).
Proof.
  repeat split; [|left; reflexivity].
  cbn [goods conflict_record]. rewrite length_firstn. lia.
Qed.

Lemma worker_record_error (st var title : str) :
  worker_record st var (error_record st var title).
Proof. repeat split; [vm_compute; lia | right; reflexivity]. Qed.

Ltac shape :=
  repeat match goal with
         | H : not_raise ?a |- _ => clear H
         end;
  repeat first [ apply Forall_nil
               | assumption
               | apply Forall_cons
               | apply Forall_app; split ];
  try solve [ exact I | reflexivity
            | apply worker_record_conflict | apply worker_record_error
            | cbn [search_event]; rewrite length_firstn; lia ].

Section SearchEvents.
Context `{Runtime}.
Variable classes : str.

Lemma extract_data_shape (st var title : str) (is_modal : bool) :
  spec (extract_data st var title is_modal)
       (fun _ tr => Forall (search_event classes st var) tr)
       (fun _ _ => False).
Proof. unfold extract_data, gv. wp. all: shape. Qed.

Lemma scrape_item_shape (st var : str) (i : nat) :
  spec (scrape_item st var i)
       (fun _ tr => Forall (search_event classes st var) tr)
       (fun _ _ => False).
Proof.
  unfold scrape_item. wp. all: try solve [shape].
  all: wp_use extract_data_shape; wp; shape.
Qed.

Lemma scrape_items_shape (st var : str) (indices : list nat) :
  spec (scrape_items st var indices)
       (fun _ tr => Forall (search_event classes st var) tr)
       (fun _ _ => False).
Proof.
  induction indices as [|i rest IH]; simpl; wp; [shape|].
  wp_use scrape_item_shape. wp; try solve [shape].
  wp_use IH. shape.
Qed.

Lemma scrape_pages_shape (fuel : nat) (st var : str) (n0 : nat) :
  spec (scrape_pages fuel st var n0)
       (fun _ tr => Forall (search_event classes st var) tr)
       (fun _ tr => Forall (search_event classes st var) tr).
Proof.
  revert n0; induction fuel as [|k IH]; intros n0; simpl; wp.
  all: try solve [shape].
  wp_use scrape_items_shape. wp.
  all: try solve [shape].
  all: eapply spec_conseq;
    [apply IH | cbv beta; intros ? ? ? | cbv beta; intros ? ? ?].
  all: shape.
Qed.

Lemma get_captcha_image_shape (fuel : nat) (name var : str) :
  spec (get_captcha_image fuel)
       (fun _ tr => Forall (search_event classes name var) tr)
       (fun _ _ => False).
Proof.
  unfold get_captcha_image. wp.
  - wp_use wait_for_captcha_silent. subst. wp. shape.
  - shape.
Qed.

Lemma on_alert_shape (fuel : nat) (err : str) (code : option str)
      (name var : str) :
  spec (on_alert fuel err code)
       (fun _ tr => Forall (search_event classes name var) tr)
       (fun _ tr => Forall (search_event classes name var) tr).
Proof.
  unfold on_alert. wp; try solve [shape].
  wp_use (get_captcha_image_shape fuel name var). wp. shape.
Qed.

Lemma attempt_shape (fuel : nat) (name var : str) (code : option str)
      (found : bool) :
  spec (attempt classes fuel name var code found)
       (fun _ tr => Forall (search_event classes name var) tr)
       (fun _ _ => False).
Proof.
  unfold attempt, submit_form. apply spec_try_except.
  eapply spec_conseq with
      (Q' := fun _ tr => Forall (search_event classes name var) tr)
      (R' := fun _ tr => Forall (search_event classes name var) tr).
  - wp. all: try solve [shape].
    all: try (wp_use (on_alert_shape fuel s0 code name var); wp).
    all: try solve [shape].
    all: wp_use (scrape_pages_shape fuel name var 0); wp.
    all: try solve [shape].
  - auto.
  - intros e tr Htr. wp.
    all: wp_use (get_captcha_image_shape fuel name var); wp; shape.
Qed.

Lemma search_variant_shape (fuel : nat) (name var : str)
      (code : option str) (found : bool) :
  spec (search_variant classes fuel name var code found)
       (fun _ tr => Forall (search_event classes name var) tr)
       (fun _ _ => False).
Proof.
  revert code found; induction fuel as [|k IH]; intros code found; simpl; wp.
  - shape.
  - wp_use attempt_shape. wp; subst.
    + wp_use IH. shape.
    + shape.
    + shape.
Qed.

Lemma name_event_incl (name : str) (l l' : list str) (tr : list event) :
  incl l l' ->
  Forall (name_event classes name l) tr ->
  Forall (name_event classes name l') tr.
Proof.
  intros Hl. apply Forall_impl. intros e (v & Hv & He).
  exists v. split; [apply Hl, Hv | exact He].
Qed.

Lemma search_variants_shape (fuel : nat) (name : str) (variants : list str)
      (code : option str) (found : bool) :
  spec (search_variants classes fuel name variants code found)
       (fun _ tr => Forall (name_event classes name variants) tr)
       (fun _ _ => False).
Proof.
  revert code found; induction variants as [|v vs IH]; intros code found;
    simpl; wp.
  - shape.
  - shape.
  - wp_use pause_check_silent. subst. wp.
    wp_use search_variant_shape. wp_use IH.
    repeat first [apply Forall_nil | apply Forall_app; split].
    + eapply Forall_impl; [|eassumption]. intros e He.
      exists v. split; [left; reflexivity | exact He].
    + eapply name_event_incl; [|eassumption]. apply incl_tl, incl_refl.
Qed.

Lemma process_name_shape (fuel idx total : nat) (name : str)
      (code : option str) :
  spec (process_name classes fuel idx total name code)
       (fun r tr =>
          exists tr0,
            tr = [ ProgressSignal (idx + 1) total;
                   LogSignal (LogAnalysing name);
                   LogSignal (LogCoreRoot (core_root_of name));
                   LogSignal (LogVariantCount
                                (length (fst (analyze_name name)))) ]
                 ++ tr0
                 ++ (if snd r then []
                     else [ResultSignal (summary_record name)])
            /\ Forall (name_event classes name (fst (analyze_name name))) tr0)
       (fun _ _ => False).
Proof.
  unfold process_name. wp.
  wp_use pause_check_silent. subst. wp.
  wp_use search_variants_shape. wp.
  all: match goal with
       | Htr : Forall (name_event _ _ _) ?t |- _ => exists t
       end.
  all: match goal with
       | Han : analyze_name _ = (_, ?r) |- _ =>
         assert (Hroot : layer4_core_root r = core_root_of name)
           by (unfold analyze_name in Han; injection Han as _ <-;
               reflexivity)
       end.
  all: match goal with
       | Hb : negb (snd ?r) = _ |- _ => destruct (snd r); try discriminate Hb
       end.
  all: rewrite Hroot; simpl; rewrite ?app_nil_r; auto.
Qed.
(** X16: the pass of a name first reports its progress and logs the
    analysis; then every title it types into the form is a variant of
    the name, the class codes it types are the configured ones, and every
    record it emits carries the name, the variant under search, at most
    100 characters of goods and the status of a conflict or of a reading
    error; the errors it logs are cut to 50 characters; last comes the
    summary record, exactly when the conflict flag is unset.  No
    exception leaves the pass. *)
Theorem name_pass_events (fuel idx total : nat) (name : str)
        (code : option str) (w : World) :
  match process_name classes fuel idx total name code w with
  | (Done r, _, tr) =>
    exists tr0,
      tr = [ ProgressSignal (idx + 1) total;
             LogSignal (LogAnalysing name);
             LogSignal (LogCoreRoot (core_root_of name));
             LogSignal (LogVariantCount (length (fst (analyze_name name)))) ]
           ++ tr0
           ++ (if snd r then [] else [ResultSignal (summary_record name)])
      /\ Forall (name_event classes name (fst (analyze_name name))) tr0
  | (Raised _, _, _) => False
  | (Cut, _, _) => True
  end.
Proof. exact (process_name_shape fuel idx total name code w). Qed.
End SearchEvents.

(** ** The names of a run and the end of the thread *)

Lemma announced_app (tr1 tr2 : list event) :
  announced (tr1 ++ tr2) = announced tr1 ++ announced tr2.
Proof. apply flat_map_app. Qed.

Lemma progress_of_app (tr1 tr2 : list event) :
  progress_of (tr1 ++ tr2) = progress_of tr1 ++ progress_of tr2.
Proof. apply flat_map_app. Qed.

Lemma search_events_announce_nothing (classes name : str)
      (variants : list str) (tr : list event) :
  Forall (name_event classes name variants) tr ->
  announced tr = [] /\ progress_of tr = [].
Proof.
  induction 1 as [|e tr (v & _ & He) _ [IHa IHp]]; [auto|].
  unfold announced, progress_of in *. simpl. rewrite IHa, IHp.
  destruct e as [r a|m| | | | |]; try destruct m; simpl in *; auto;
    contradiction.
Qed.

Lemma captcha_announces_nothing (fuel : nat) :
  spec (get_captcha_image fuel)
       (fun _ tr => announced tr = [] /\ progress_of tr = [])
       (fun _ _ => False).
Proof.
  wp_use (get_captcha_image_shape [] fuel [] []).
  apply (@search_events_announce_nothing [] [] [[]]).
  eapply Forall_impl; [|eassumption]. intros e He.
  exists []. split; [left; reflexivity | exact He].
Qed.

Lemma progress_next (idx total k : nat) :
  (idx + 1, total) :: map (fun i => (S idx + i, total)) (seq 1 k) =
  map (fun i => (idx + i, total)) (seq 1 (S k)).
Proof.
  cbn [seq map]. f_equal. rewrite <- (seq_shift k 1), map_map.
  apply map_ext. intros i. f_equal. lia.
Qed.

Lemma ends_with_one (e : event) : ends_with e [e].
Proof. exists []. reflexivity. Qed.

Lemma ends_with_app (e : event) (tr1 tr2 : list event) :
  ends_with e tr2 -> ends_with e (tr1 ++ tr2).
Proof. intros [tr0 ->]. exists (tr1 ++ tr0). apply app_assoc. Qed.

Ltac ends :=
  rewrite ?app_nil_r;
  repeat first [apply ends_with_one | apply ends_with_app].

(** The names announced over a trace made of parts. *)
Ltac names_announced :=
  repeat match goal with
         | Hex : exists _, announces _ _ _ _ _ |- _ =>
           destruct Hex as (?k & ?Hk & ?Ha & ?Hp)
         | Hc : announced _ = [] /\ _ |- _ => destruct Hc as [?Hc1 ?Hc2]
         end;
  unfold announces, names_of in *;
  rewrite ?announced_app, ?progress_of_app;
  repeat match goal with
         | Heq : announced _ = _ |- _ => rewrite Heq
         | Heq : progress_of _ = _ |- _ => rewrite Heq
         end;
  cbn [announced progress_of flat_map app]; rewrite ?app_nil_r; auto.

Section Names.
Context `{Runtime}.
Variable classes : str.

Lemma process_names_announces (fuel idx total : nat) (names : list str)
      (code : option str) :
  spec (process_names classes fuel idx total names code)
       (fun _ tr => exists k, announces idx total names k tr)
       (fun _ _ => False).
Proof.
  revert idx code; induction names as [|name rest IH]; intros idx code;
    simpl; wp.
  - exists 0. repeat split. simpl. lia.
  - exists 0. repeat split. simpl. lia.
  - wp_use process_name_shape. wp_use IH. cbv beta in *.
    match goal with
    | Hex : exists _, _ /\ Forall _ _ |- _ => destruct Hex as (t & -> & Ht)
    end.
    match goal with
    | Hex : exists _, announces _ _ _ _ _ |- _ =>
      destruct Hex as (k & Hk & Ha & Hp)
    end.
    destruct (search_events_announce_nothing Ht) as [Ha0 Hp0].
    exists (S k). unfold announces.
    rewrite !announced_app, !progress_of_app, Ha, Hp, Ha0, Hp0.
    destruct (snd _); simpl; (split; [lia|]); (split; [reflexivity|]).
    all: rewrite ?app_nil_r; apply progress_next.
Qed.

(** How [run] ends, and what it announced by then. *)
Lemma run_shape (fuel : nat) (file_path : str) :
  spec (run classes fuel file_path)
       (fun _ tr =>
          (exists e,
              ends_with (LogSignal (LogFileError (exn_str e))) tr
              /\ In (Did (ReadNames file_path) (Raise e)) tr
              /\ announced tr = [] /\ progress_of tr = [])
          \/ (ends_with FinishedSignal tr
              /\ exists ls k,
                  In (Did (ReadNames file_path) (Lines ls)) tr
                  /\ announces 0 (length (names_of ls)) (names_of ls) k tr))
       (fun e tr =>
          exists r,
            ends_with (Did r (Raise e)) tr /\ unguarded r = true
            /\ (r = QuitDriver ->
                exists ls k,
                  In (Did (ReadNames file_path) (Lines ls)) tr
                  /\ announces 0 (length (names_of ls)) (names_of ls) k tr)).
Proof.
  unfold run. wp.
  1, 2: wp_use captcha_announces_nothing; apply spec_bind;
    wp_use process_names_announces; wp; cbv beta in *.
  1, 3: right; split; [ends|].
  3, 4: exists QuitDriver; split; [ends|]; split; [reflexivity|]; intros _.
  1, 2, 3, 4:
    match goal with
    | Hex : exists _, announces _ _ _ _ _ |- _ => destruct Hex as (k & Hex)
    end;
    exists ls, k; (split; [rewrite !in_app_iff; simpl; tauto|]);
    names_announced.
  - left. exists e. split; [ends|].
    split; [rewrite !in_app_iff; simpl; tauto|]. names_announced.
  - exists (Get (u "https://ipm.ssaa.ir/Search-Trademark")).
    split; [ends|]. split; [reflexivity | discriminate].
  - exists SetupDriver.
    split; [ends|]. split; [reflexivity | discriminate].
Qed.

(** X17: the names [run] works on are the lines of the file that are not
    blank, stripped; a run that ends normally has announced a first part
    of them, in the order of the file and each once, with its rank and
    the number of names as progress; when the file could not be read it
    has announced nothing. *)
Theorem run_announces_names (fuel : nat) (file_path : str) (w : World) :
  match run classes fuel file_path w with
  | (Done _, _, tr) =>
    (exists e,
        In (Did (ReadNames file_path) (Raise e)) tr
        /\ announced tr = [] /\ progress_of tr = [])
    \/ (exists ls k,
           In (Did (ReadNames file_path) (Lines ls)) tr
           /\ announces 0 (length (names_of ls)) (names_of ls) k tr)
  | _ => True
  end.
Proof.
  pose proof (run_shape fuel file_path w) as Hr.
  destruct (run classes fuel file_path w) as [[[[]|e|] w'] tr]; auto.
  destruct Hr as [(e & _ & Hr) | (_ & Hr)]; [left; exists e|right]; exact Hr.
Qed.

(** X18: an exception ends [run] only when the browser cannot be started,
    the search page cannot be opened or the browser cannot be closed;
    every other failure is caught.  A run that ends normally ends with
    the finished signal, or with the log line of the file it could not
    read. *)
Theorem run_ends (fuel : nat) (file_path : str) (w : World) :
  match run classes fuel file_path w with
  | (Done _, _, tr) =>
    ends_with FinishedSignal tr
    \/ exists e, ends_with (LogSignal (LogFileError (exn_str e))) tr
  | (Raised e, _, tr) =>
    exists r, ends_with (Did r (Raise e)) tr /\ unguarded r = true
  | (Cut, _, _) => True
  end.
Proof.
  pose proof (run_shape fuel file_path w) as Hr.
  destruct (run classes fuel file_path w) as [[[[]|e|] w'] tr]; auto.
  - destruct Hr as [(e & Hr & _) | (Hr & _)]; [right; exists e|left]; exact Hr.
  - destruct Hr as (r & Hr & Hu & _). exists r. auto.
Qed.
End Names.

(** ** The window: table and summary lists *)

Lemma show_events_app (window : App) (tr1 tr2 : list event) :
  show_events window (tr1 ++ tr2) = show_events (show_events window tr1) tr2.
Proof. apply fold_left_app. Qed.

Lemma add_result_results (data : record) (window : App) :
  results (add_result data window) = results window ++ [data]
  /\ map cells (table (add_result data window))
     = map cells (table window) ++ [fields_of data]
  /\ length (list_approved (add_result data window))
     + length (list_rejected (add_result data window))
     <= length (list_approved window) + length (list_rejected window) + 1.
Proof.
  unfold add_result.
  destruct (contains (u "آزاد") (status data));
    [destruct (str_eqb (variant data) (u "مجموع بررسی‌ها"))|
     destruct (contains (u "تعارض") (status data)
               || contains (u "مشابه") (status data))];
    cbn [results table list_approved list_rejected];
    rewrite ?map_app, ?length_app; cbn [map cells length];
    repeat split; lia.
Qed.

(** X19: the window keeps every record it receives, in order, and shows
    one table row for each, whose cells are the seven fields of the
    record; each record adds at most one entry to the two summary
    lists. *)
Theorem table_shows_results (tr : list event) :
  results (show_events cleared tr) = records_of tr
  /\ map cells (table (show_events cleared tr))
     = map fields_of (results (show_events cleared tr))
  /\ length (list_approved (show_events cleared tr))
     + length (list_rejected (show_events cleared tr))
     <= length (results (show_events cleared tr)).
Proof.
  assert (Hinv : forall window,
             results (show_events window tr) = results window ++ records_of tr
             /\ map cells (table (show_events window tr))
                = map cells (table window) ++ map fields_of (records_of tr)
             /\ length (list_approved (show_events window tr))
                + length (list_rejected (show_events window tr))
                <= length (list_approved window) + length (list_rejected window)
                   + length (records_of tr)).
  { induction tr as [|e tr IH]; intros window.
    - simpl. rewrite !app_nil_r. repeat split. lia.
    - change (show_events window (e :: tr))
        with (show_events (show_event window e) tr).
      destruct (IH (show_event window e)) as (Hr & Ht & Hl).
      rewrite Hr, Ht.
      destruct e; cbn [show_event records_of flat_map app] in *;
        try (repeat split; [exact Hl]).
      destruct (add_result_results r window) as (Hr1 & Ht1 & Hl1).
      rewrite Hr1, Ht1, <- !app_assoc. cbn [map length app].
      repeat split. fold (records_of tr) in *. lia. }
  destruct (Hinv cleared) as (Hr & Ht & Hl).
  cbn [cleared results table list_approved list_rejected map List.app length
       Nat.add] in Hr, Ht, Hl.
  rewrite Hr, Ht. repeat split. exact Hl.
Qed.

Lemma free_in_summary : contains (u "آزاد") (u "آزاد (تأیید شده)") = true.
Proof. vm_compute. reflexivity. Qed.

Lemma free_in_conflict : contains (u "آزاد") (u "دارای تعارض") = false.
Proof. vm_compute. reflexivity. Qed.

Lemma conflict_in_conflict : contains (u "تعارض") (u "دارای تعارض") = true.
Proof. vm_compute. reflexivity. Qed.

Lemma nothing_in_error :
  contains (u "آزاد") (u "خطا") = false
  /\ contains (u "تعارض") (u "خطا") = false
  /\ contains (u "مشابه") (u "خطا") = false.
Proof. vm_compute. auto. Qed.

Lemma add_result_summary (name : str) (window : App) :
  list_approved (add_result (summary_record name) window)
  = list_approved window ++ [u "✅ " ++ name]
  /\ list_rejected (add_result (summary_record name) window) = list_rejected window.
Proof.
  unfold add_result. cbn [status variant search_term summary_record].
  rewrite free_in_summary, str_eqb_refl. split; reflexivity.
Qed.

Lemma add_result_worker_record (st var : str) (r : record) (window : App) :
  worker_record st var r ->
  list_approved (add_result r window) = list_approved window
  /\ length (list_rejected (add_result r window))
     = length (list_rejected window) + conflicts [ResultSignal r]
  /\ (conflicts [ResultSignal r] = 0 ->
      list_rejected (add_result r window) = list_rejected window).
Proof.
  intros (_ & _ & _ & [Hs|Hs]); unfold add_result, conflicts;
    cbn [filter is_conflict]; rewrite Hs.
  - rewrite free_in_conflict, conflict_in_conflict, str_eqb_refl.
    cbn [orb list_approved list_rejected length].
    rewrite length_app. cbn [length]. repeat split. discriminate.
  - destruct nothing_in_error as (-> & -> & ->).
    replace (str_eqb (u "خطا") (u "دارای تعارض")) with false
      by (vm_compute; reflexivity).
    cbn [orb list_approved list_rejected length]. repeat split. lia.
Qed.

Lemma conflicts_app (tr1 tr2 : list event) :
  conflicts (tr1 ++ tr2) = conflicts tr1 + conflicts tr2.
Proof. unfold conflicts. rewrite filter_app, length_app. reflexivity. Qed.

Lemma show_search_events (classes name : str) (variants : list str)
      (tr : list event) :
  Forall (name_event classes name variants) tr ->
  forall window,
    list_approved (show_events window tr) = list_approved window
    /\ length (list_rejected (show_events window tr))
       = length (list_rejected window) + conflicts tr
    /\ (conflicts tr = 0 ->
        list_rejected (show_events window tr) = list_rejected window).
Proof.
  induction 1 as [|e tr (v & _ & He) _ IH]; intros window.
  - repeat split. unfold conflicts. simpl. lia.
  - change (show_events window (e :: tr))
      with (show_events (show_event window e) tr).
    change (e :: tr) with ([e] ++ tr). rewrite conflicts_app.
    destruct (IH (show_event window e)) as (Ha & Hl & Hz).
    rewrite Ha, Hl.
    destruct e as [q a|m| | | |r|];
      try solve [unfold conflicts at 1 2;
                 cbn [show_event filter is_conflict length];
                 repeat split; auto].
    destruct (add_result_worker_record window He) as (Ha1 & Hl1 & Hz1).
    cbn [show_event] in *. rewrite Ha1, Hl1.
    repeat split; [lia|]. intros Hc.
    rewrite Hz, Hz1 by lia. reflexivity.
Qed.

Section Verdict.
Context `{Runtime}.
Variable classes : str.

(** X20: when the records of the pass of a name are shown, the list of
    approved names gains the name exactly when the pass ended with the
    conflict flag unset, and gains nothing else; the list of rejected
    names gains one entry for each conflict record of the pass, so a
    pass without conflict record leaves it as it is. *)
Theorem verdict_lists (fuel idx total : nat) (name : str)
        (code : option str) (w : World) (window : App) :
  match process_name classes fuel idx total name code w with
  | (Done r, _, tr) =>
    list_approved (show_events window tr)
    = list_approved window ++ (if snd r then [] else [u "✅ " ++ name])
    /\ length (list_rejected (show_events window tr))
       = length (list_rejected window) + conflicts tr
    /\ (conflicts tr = 0 ->
        list_rejected (show_events window tr) = list_rejected window)
  | _ => True
  end.
Proof.
  pose proof (process_name_shape classes fuel idx total name code w) as Hp.
  destruct (process_name classes fuel idx total name code w)
    as [[[r|e|] w'] tr]; auto.
  destruct Hp as (tr0 & -> & Htr0).
  rewrite !show_events_app, !conflicts_app.
  change (conflicts [_; _; _; _]) with 0.
  match goal with
  | |- context [show_events window ?hdr] =>
    change (show_events window hdr) with window
  end.
  destruct (show_search_events Htr0 window) as (Ha & Hl & Hz).
  destruct (snd r).
  - change (conflicts []) with 0. cbn [show_events fold_left].
    rewrite Ha, Hl, app_nil_r. repeat split; [lia|].
    intros Hc. apply Hz. lia.
  - change (conflicts [ResultSignal (summary_record name)]) with 0.
    cbn [show_events fold_left show_event].
    fold (show_events window tr0).
    destruct (add_result_summary name (show_events window tr0)) as [Ha1 Hl1].
    rewrite Ha1, Hl1, Ha, Hl. repeat split; [lia|].
    intros Hc. apply Hz. lia.
Qed.
End Verdict.

(** ** The exported rows *)

Lemma sanitize_legal (v : str) :
  Forall (fun c => illegal_character c = false) (sanitize v).
Proof.
  apply Forall_forall. intros c Hc. apply filter_In in Hc.
  apply negb_true_iff, Hc.
Qed.

Lemma sanitize_fixed (v : str) :
  Forall (fun c => illegal_character c = false) v -> sanitize v = v.
Proof.
  induction 1 as [|c v Hc _ IH]; [reflexivity|].
  unfold sanitize in *. simpl. rewrite Hc, IH. reflexivity.
Qed.

(** X21: the rows handed to the spreadsheet writer are as many as the
    records of the window; no field of them holds a control character
    that a spreadsheet refuses; cleaning them a second time changes
    nothing, and records without such characters are handed over as they
    are. *)
Theorem export_removes_control_characters (rows : list record) :
  length (clean_results rows) = length rows
  /\ Forall (fun r => Forall (Forall (fun c => illegal_character c = false))
                             (fields_of r))
            (clean_results rows)
  /\ clean_results (clean_results rows) = clean_results rows
  /\ (Forall (fun r => Forall (Forall (fun c => illegal_character c = false))
                              (fields_of r)) rows ->
      clean_results rows = rows).
Proof.
  split; [apply length_map|]. split; [|split].
  - apply Forall_forall. intros r Hr. apply in_map_iff in Hr.
    destruct Hr as (r0 & <- & _).
    repeat constructor; apply sanitize_legal.
  - unfold clean_results. rewrite map_map. apply map_ext. intros r.
    unfold clean_row. cbn [search_term variant status brand reg_no owner goods].
    rewrite !(sanitize_fixed (sanitize_legal _)). reflexivity.
  - induction 1 as [|r rows Hr _ IH]; [reflexivity|].
    unfold clean_results in *. cbn [map]. rewrite IH. f_equal.
    destruct r as [f1 f2 f3 f4 f5 f6 f7]. unfold fields_of in Hr.
    cbn [search_term variant status brand reg_no owner goods] in Hr.
    repeat match goal with
           | Hf : Forall _ (_ :: _) |- _ =>
             apply Forall_cons_iff in Hf; destruct Hf as [?Hv Hf]
           end.
    unfold clean_row.
    cbn [search_term variant status brand reg_no owner goods].
    rewrite !sanitize_fixed by assumption. reflexivity.
Qed.

Lemma export_removes_control_characters_witness :
  clean_results [summary_record (u "ab")] = [summary_record (u "ab")].
Proof.
  apply (proj2 (proj2 (proj2 (export_removes_control_characters
                                [summary_record (u "ab")])))).
  vm_compute. repeat constructor.
Defined.

(** ** The records of a run *)

Lemma records_of_app (tr1 tr2 : list event) :
  records_of (tr1 ++ tr2) = records_of tr1 ++ records_of tr2.
Proof. apply flat_map_app. Qed.

Lemma records_of_plain (tr : list event) : plain tr -> records_of tr = [].
Proof.
  intros (Hr & _). induction tr as [|e tr IH]; [reflexivity|].
  simpl in Hr. apply orb_false_iff in Hr. destruct Hr as [He Hr].
  unfold records_of in *. simpl. rewrite (IH Hr).
  destruct e; try reflexivity. discriminate He.
Qed.

Lemma known_record_incl (l l' : list str) (rs : list record) :
  incl l l' -> Forall (known_record l) rs -> Forall (known_record l') rs.
Proof.
  intros Hl. apply Forall_impl. intros r [Hin Hs].
  split; [apply Hl, Hin | exact Hs].
Qed.

Lemma search_events_records (classes name : str) (variants : list str)
      (tr : list event) :
  Forall (name_event classes name variants) tr ->
  Forall (known_record [name]) (records_of tr).
Proof.
  induction 1 as [|e tr (v & _ & He) _ IH]; [constructor|].
  destruct e as [q a|m| | | |r|]; try exact IH.
  change (records_of (ResultSignal r :: tr)) with (r :: records_of tr).
  constructor; [|exact IH].
  destruct He as (Hst & _ & _ & Hs). split; [left; auto | tauto].
Qed.

Section RunRecords.
Context `{Runtime}.
Variable classes : str.

Lemma process_names_records (fuel idx total : nat) (names : list str)
      (code : option str) :
  spec (process_names classes fuel idx total names code)
       (fun _ tr => Forall (known_record names) (records_of tr))
       (fun _ _ => False).
Proof.
  revert idx code; induction names as [|name rest IH]; intros idx code;
    simpl; wp.
  - constructor.
  - constructor.
  - wp_use process_name_shape. wp_use IH. cbv beta in *.
    match goal with
    | Hex : exists _, _ /\ Forall _ _ |- _ => destruct Hex as (t & -> & Ht)
    end.
    rewrite !records_of_app. repeat (apply Forall_app; split).
    all: try match goal with
             | Hs : Forall (name_event _ _ _) ?t0
               |- Forall _ (records_of ?t0) =>
               eapply known_record_incl; [|exact (search_events_records Hs)];
                 intros x [<-|[]]; left; reflexivity
             | Hr : Forall (known_record _) (records_of ?t0)
               |- Forall _ (records_of ?t0) =>
               eapply known_record_incl; [|exact Hr];
                 apply incl_tl, incl_refl
             end.
    all: try (destruct (snd _)).
    all: cbn [records_of flat_map List.app].
    all: repeat first [ apply Forall_nil | apply Forall_cons ].
    split; [left; reflexivity | right; right; reflexivity].
Qed.

Lemma run_records (fuel : nat) (file_path : str) :
  spec (run classes fuel file_path)
       (fun _ tr =>
          records_of tr = []
          \/ exists ls,
              In (Did (ReadNames file_path) (Lines ls)) tr
              /\ Forall (known_record (names_of ls)) (records_of tr))
       (fun _ tr =>
          records_of tr = []
          \/ exists ls,
              In (Did (ReadNames file_path) (Lines ls)) tr
              /\ Forall (known_record (names_of ls)) (records_of tr)).
Proof.
  unfold run. wp.
  1, 2: wp_use get_captcha_image_plain; apply spec_bind;
    wp_use process_names_records; wp; cbv beta in *.
  1, 2, 3, 4:
    right; exists ls; (split; [rewrite !in_app_iff; simpl; tauto|]);
    rewrite !records_of_app;
    match goal with
    | Hp : plain _ |- _ => rewrite (records_of_plain Hp)
    end;
    cbn [records_of flat_map app]; rewrite ?app_nil_r; assumption.
  all: left; reflexivity.
Qed.

(** X22: every record a run emits is about a name of the file: its
    search term is one of the non-blank lines that were read, stripped,
    and it is a record made from a detail view, with the status of a
    conflict or of a reading error, or the summary record of that name.
    A run that could not read the file emits no record. *)
Theorem run_records_name_the_file (fuel : nat) (file_path : str)
        (w : World) :
  match run classes fuel file_path w with
  | (Cut, _, _) => True
  | (_, _, tr) =>
    records_of tr = []
    \/ exists ls,
        In (Did (ReadNames file_path) (Lines ls)) tr
        /\ Forall (known_record (names_of ls)) (records_of tr)
  end.
Proof.
  pose proof (run_records fuel file_path w) as Hr.
  destruct (run classes fuel file_path w) as [[[[]|e|] w'] tr]; auto.
Qed.
End RunRecords.
